(** * One-day snake: a shallow embedding of [snake.py] and its properties

    The program is a single script: a [Direction] enumeration, three small
    helpers and a polling game loop over top-level variables.  The loop body
    is embedded as a function [iteration] on an explicit [GameState] record.
    Everything the loop reads from the outside world (the pygame event
    queue, [time.time()], the [random] module) is an argument of the
    iteration, so that the embedding is deterministic and executable.
    Python exceptions are values of an error monad.  Wall-clock readings are
    floats in the source; only their comparisons matter here and they are
    modelled by rationals.  A sum of clock values is exact in the model,
    where the source rounds it to a float; the properties proved of the
    loop are stated on comparisons and do not rest on the value of such a
    sum.  Rendering is not modelled. *)

From Stdlib Require Import ZArith QArith Lia.
From stdpp Require Import base decidable option list gmap sets.

Local Open Scope Z_scope.

(** ** Python exceptions *)

Inductive exn : Set :=
| ValueError          (* list.remove(x): x not in list; randint on an empty range *)
| IndexError          (* list index out of range *)
| ZeroDivisionError   (* integer modulo by zero *)
| TypeError.          (* subscripting None *)

Inductive result (A : Type) : Type :=
| Ok (a : A)
| Raise (e : exn).
Arguments Ok {A} a.
Arguments Raise {A} e.

Global Instance result_ret : MRet result := λ A a, Ok a.
Global Instance result_bind : MBind result := λ A B f m,
  match m with
  | Ok a => f a
  | Raise e => Raise e
  end.

(** ** Constants (lines 12-15) *)

Definition PARTS_AFTER_FOOD : Z := 3.
Definition INITIAL_LENGTH : nat := 4.
Definition FPS : Z := 16.

(** ** Geometry *)

Definition Cell : Type := Z * Z.

(** [class Direction(enum.IntEnum)].  The members are integers; the two
    methods are written on integers, as Python evaluates them. *)
Module Direction.

Inductive t : Set := UP | RIGHT | DOWN | LEFT.

Definition value (d : t) : Z :=
  match d with
  | UP => 1
  | RIGHT => 2
  | DOWN => 3
  | LEFT => 4
  end.

(** [min(direction1, direction2) + 2 == max(direction1, direction2)] *)
Definition reversed (direction1 direction2 : Z) : bool :=
  Z.min direction1 direction2 + 2 =? Z.max direction1 direction2.

(** The [if]/[elif] chain of [Direction.vector]; [None] is Python's [None]. *)
Definition vector (direction : Z) : option (Z * Z) :=
  if direction =? value UP then Some (0, -1)
  else if direction =? value RIGHT then Some (1, 0)
  else if direction =? value DOWN then Some (0, 1)
  else if direction =? value LEFT then Some (-1, 0)
  else None.

Global Instance eq_dec : EqDecision t.
Proof. solve_decision. Defined.

End Direction.

Import Direction (UP, RIGHT, DOWN, LEFT).
Abbreviation Direction := Direction.t.

Definition add_vectors (vec1 vec2 : Z * Z) : Z * Z :=
  (vec1.1 + vec2.1, vec1.2 + vec2.2).

(** [random.choice(food_range) + random.random()]: the two draws are
    arguments. *)
Definition get_next_food_time (choice : Z) (jitter : Q) : Q :=
  (inject_Z choice + jitter)%Q.

(** ** Python list operations used by the loop *)

(** [l.count(x)] *)
Definition count (x : Cell) (l : list Cell) : nat :=
  length (filter (λ c, c = x) l).

(** [l.remove(x)]: drops the first occurrence, raises [ValueError] when
    there is none. *)
Fixpoint list_remove (x : Direction) (l : list Direction) : result (list Direction) :=
  match l with
  | [] => Raise ValueError
  | y :: l' =>
      if decide (y = x) then Ok l'
      else l'' ← list_remove x l'; Ok (y :: l'')
  end.

(** [for index in range(n, 0, -1): snake[index] = snake[index - 1]],
    entered with [n = len(snake) - 1]. *)
Fixpoint shift_from (index : nat) (snake : list Cell) : list Cell :=
  match index with
  | O => snake
  | S i =>
      shift_from i
        match snake !! i with
        | Some c => <[S i := c]> snake
        | None => snake
        end
  end.

Definition shift_body (snake : list Cell) : list Cell :=
  shift_from (length snake - 1)%nat snake.

(** ** Events delivered by [pygame.event.get()] *)

Inductive Key : Set := K_ESCAPE | K_SPACE | K_w | K_a | K_s | K_d | K_other.

Inductive Event : Set :=
| QUIT
| KEYDOWN (key : Key)
| KEYUP (key : Key)
| OtherEvent.

(** What the pause branch (lines 113-114) reads from the clock and the
    random generator while it handles one event. *)
Record Reading : Set := {
  time_food : Q;      (* time.time() on line 113 *)
  choice : Z;         (* random.choice(next_food_range) *)
  jitter : Q;         (* random.random() *)
  time_frame : Q;     (* time.time() on line 114 *)
}.

(** ** The top-level variables *)

Record GameState : Type := {
  snake : list Cell;
  spare_parts : Z;
  direction : list Direction;
  last_direction : Direction;
  food : gset Cell;
  next_food : Q;
  next_frame : Q;
  running : bool;
  paused : bool;
}.

Definition set_snake (v : list Cell) (st : GameState) : GameState :=
  {| snake := v; spare_parts := spare_parts st; direction := direction st;
     last_direction := last_direction st; food := food st;
     next_food := next_food st; next_frame := next_frame st;
     running := running st; paused := paused st |}.

Definition set_spare_parts (v : Z) (st : GameState) : GameState :=
  {| snake := snake st; spare_parts := v; direction := direction st;
     last_direction := last_direction st; food := food st;
     next_food := next_food st; next_frame := next_frame st;
     running := running st; paused := paused st |}.

Definition set_direction (v : list Direction) (st : GameState) : GameState :=
  {| snake := snake st; spare_parts := spare_parts st; direction := v;
     last_direction := last_direction st; food := food st;
     next_food := next_food st; next_frame := next_frame st;
     running := running st; paused := paused st |}.

Definition set_last_direction (v : Direction) (st : GameState) : GameState :=
  {| snake := snake st; spare_parts := spare_parts st; direction := direction st;
     last_direction := v; food := food st;
     next_food := next_food st; next_frame := next_frame st;
     running := running st; paused := paused st |}.

Definition set_food (v : gset Cell) (st : GameState) : GameState :=
  {| snake := snake st; spare_parts := spare_parts st; direction := direction st;
     last_direction := last_direction st; food := v;
     next_food := next_food st; next_frame := next_frame st;
     running := running st; paused := paused st |}.

Definition set_next_food (v : Q) (st : GameState) : GameState :=
  {| snake := snake st; spare_parts := spare_parts st; direction := direction st;
     last_direction := last_direction st; food := food st;
     next_food := v; next_frame := next_frame st;
     running := running st; paused := paused st |}.

Definition set_next_frame (v : Q) (st : GameState) : GameState :=
  {| snake := snake st; spare_parts := spare_parts st; direction := direction st;
     last_direction := last_direction st; food := food st;
     next_food := next_food st; next_frame := v;
     running := running st; paused := paused st |}.

Definition set_running (v : bool) (st : GameState) : GameState :=
  {| snake := snake st; spare_parts := spare_parts st; direction := direction st;
     last_direction := last_direction st; food := food st;
     next_food := next_food st; next_frame := next_frame st;
     running := v; paused := paused st |}.

Definition set_paused (v : bool) (st : GameState) : GameState :=
  {| snake := snake st; spare_parts := spare_parts st; direction := direction st;
     last_direction := last_direction st; food := food st;
     next_food := next_food st; next_frame := next_frame st;
     running := running st; paused := v |}.

(** ** The event loop (lines 96-145) *)

(** How the body of the [for event in ...] loop leaves: falling through to
    the next event, or by [break]. *)
Inductive Flow : Set := Next | Break.

(** [direction.append(d)] *)
Definition press (d : Direction) (st : GameState) : GameState :=
  set_direction (direction st ++ [d]) st.

(** [direction.remove(d)] followed by
    [if len(direction) == 0: last_direction = d]. *)
Definition release (d : Direction) (st : GameState) : result GameState :=
  held ← list_remove d (direction st);
  let st' := set_direction held st in
  Ok (if (length held =? 0)%nat then set_last_direction d st' else st').

Definition handle_event (rd : Reading) (event : Event) (st : GameState)
  : result (Flow * GameState) :=
  match event with
  | QUIT => Ok (Break, set_paused true (set_running false st))
  | KEYDOWN K_ESCAPE => Ok (Break, set_paused true (set_running false st))
  | KEYDOWN K_SPACE =>
      Ok (Next,
          set_next_frame (time_frame rd)
            (set_next_food
               (time_food rd + get_next_food_time (choice rd) (jitter rd))%Q
               (set_paused (negb (paused st)) st)))
  | KEYDOWN K_w => Ok (Next, press UP st)
  | KEYDOWN K_a => Ok (Next, press LEFT st)
  | KEYDOWN K_s => Ok (Next, press DOWN st)
  | KEYDOWN K_d => Ok (Next, press RIGHT st)
  | KEYDOWN K_other => Ok (Next, st)
  | KEYUP K_w => st' ← release UP st; Ok (Next, st')
  | KEYUP K_a => st' ← release LEFT st; Ok (Next, st')
  | KEYUP K_s => st' ← release DOWN st; Ok (Next, st')
  | KEYUP K_d => st' ← release RIGHT st; Ok (Next, st')
  | KEYUP _ => Ok (Next, st)
  | OtherEvent => Ok (Next, st)
  end.

Fixpoint handle_events (events : list (Reading * Event)) (st : GameState)
  : result GameState :=
  match events with
  | [] => Ok st
  | (rd, event) :: rest =>
      r ← handle_event rd event st;
      match r with
      | (Break, st') => Ok st'
      | (Next, st') => handle_events rest st'
      end
  end.

(** The movement keys and the direction each one stands for (lines 116-123
    and 130-145). *)
Definition movement : list (Key * Direction) :=
  [(K_w, UP); (K_a, LEFT); (K_s, DOWN); (K_d, RIGHT)].

(** [last_direction if len(direction) == 0 else direction[-1]]; the default
    of [List.last] is not reached in the second branch. *)
Definition current_direction (st : GameState) : Direction :=
  if (length (direction st) =? 0)%nat then last_direction st
  else List.last (direction st) (last_direction st).

(** ** One pass through the body of [while running] (lines 94-206) *)

(** What one pass reads from the outside world. *)
Record Input : Set := {
  events : list (Reading * Event);   (* pygame.event.get(), with the pause readings *)
  current : Q;                       (* time.time() on line 152 *)
  food_x : Z;                        (* random.randint(0, world_width) *)
  food_y : Z;                        (* random.randint(0, world_height) *)
  food_choice : Z;                   (* random.choice(next_food_range) on line 157 *)
  food_jitter : Q;                   (* random.random() on line 157 *)
}.

(** [interval = 1 / FPS] *)
Definition interval : Q := (1 / inject_Z FPS)%Q.

(** [a < b] on clock readings *)
Definition Qlt_bool (a b : Q) : bool := negb (Qle_bool b a).

(** How the snake update leaves the pass: through to the food test, or by
    the [continue] of the collision branch. *)
Inductive Outcome : Type :=
| Alive (st : GameState)
| Dead (st : GameState).

Section World.

(** [world_width = width // SCALE], [world_height = height // SCALE] *)
Variables world_width world_height : Z.

(** Line 77:
    [[(world_width // 2, world_height // 2 + y) for y in range(INITIAL_LENGTH)]] *)
Definition initial_snake : list Cell :=
  (λ y : nat, (world_width `div` 2, world_height `div` 2 + Z.of_nat y))
    <$> seq 0 INITIAL_LENGTH.

(** Lines 77-90, with the two clock readings of lines 83 and 87. *)
Definition initial (t_food t_frame : Q) : GameState :=
  {| snake := initial_snake;
     spare_parts := 0;
     direction := [];
     last_direction := UP;
     food := ∅;
     next_food := t_food;
     next_frame := t_frame;
     running := true;
     paused := false |}.

(** Lines 155-157.  [random.randint(0, n)] raises [ValueError] for
    [n < 0]. *)
Definition spawn_food (inp : Input) (st : GameState) : result GameState :=
  if Qle_bool (next_food st) (current inp) then
    if (world_width <? 0) || (world_height <? 0) then Raise ValueError
    else
      Ok (set_next_food
            (next_food st + get_next_food_time (food_choice inp) (food_jitter inp))%Q
            (set_food ({[ (food_x inp, food_y inp) ]} ∪ food st) st))
  else Ok st.

(** [(c[0] % world_width, c[1] % world_height)] *)
Definition wrap (c : Cell) : result Cell :=
  if (world_width =? 0) || (world_height =? 0) then Raise ZeroDivisionError
  else Ok (c.1 `mod` world_width, c.2 `mod` world_height).

(** Lines 168-187: the snake update up to and including the spare-parts
    append.  [snake[-1]] raises [IndexError] on an empty list, and
    [add_vectors] raises [TypeError] when handed [None]. *)
Definition advance (st : GameState) : result Outcome :=
  let current_direction := Direction.vector (Direction.value (current_direction st)) in
  match last (snake st) with
  | None => Raise IndexError
  | Some last_body =>
      let shifted := shift_body (snake st) in
      match shifted !! 0%nat, current_direction with
      | None, _ => Raise IndexError
      | Some _, None => Raise TypeError
      | Some head, Some v =>
          let new_head := add_vectors head v in
          let moved := <[0%nat := new_head]> shifted in
          if (1 <? count new_head moved)%nat then
            Ok (Dead (set_running false (set_snake moved st)))
          else
            wrapped ← wrap new_head;
            let st1 := set_snake (<[0%nat := wrapped]> moved) st in
            Ok (Alive
                  (if 0 <? spare_parts st1 then
                     set_spare_parts (spare_parts st1 - 1)
                       (set_snake (snake st1 ++ [last_body]) st1)
                   else st1))
      end
  end.

(** Lines 190-192. *)
Definition eat (st : GameState) : result GameState :=
  match snake st !! 0%nat with
  | None => Raise IndexError
  | Some head =>
      Ok (if decide (head ∈ food st) then
            set_food (food st ∖ {[ head ]})
              (set_spare_parts (spare_parts st + PARTS_AFTER_FOOD) st)
          else st)
  end.

(** Lines 148-192 for a pass whose events have been handled. *)
Definition update (inp : Input) (st : GameState) : result GameState :=
  if paused st then Ok st
  else
    st ← spawn_food inp st;
    if Qlt_bool (current inp) (next_frame st) then Ok st
    else
      o ← advance (set_next_frame (next_frame st + interval)%Q st);
      match o with
      | Dead st => Ok st
      | Alive st => eat st
      end.

Definition iteration (inp : Input) (st : GameState) : result GameState :=
  st ← handle_events (events inp) st;
  update inp st.

(** The draws of lines 156-157 are in the range their generator promises. *)
Definition input_ok (inp : Input) : Prop :=
  0 ≤ food_x inp ≤ world_width ∧ 0 ≤ food_y inp ≤ world_height ∧
  1 ≤ food_choice inp ≤ 4 ∧ (0 <= food_jitter inp)%Q ∧ (food_jitter inp < 1)%Q.

(** The states at the top of [while running]. *)
Inductive reachable : GameState → Prop :=
| reach_initial (t_food t_frame : Q) :
    reachable (initial t_food t_frame)
| reach_iteration (st st' : GameState) (inp : Input) :
    reachable st →
    running st = true →
    input_ok inp →
    iteration inp st = Ok st' →
    reachable st'.

(** Several passes, one input each; the loop stops when [running] is
    cleared. *)
Fixpoint game_loop (inputs : list Input) (st : GameState) : result GameState :=
  match inputs with
  | [] => Ok st
  | inp :: rest =>
      if running st then st' ← iteration inp st; game_loop rest st'
      else Ok st
  end.

Definition in_grid (c : Cell) : Prop :=
  0 ≤ c.1 < world_width ∧ 0 ≤ c.2 < world_height.

End World.

Arguments in_grid world_width world_height c /.

(** ** Sample positions

    States of a game in progress, used to run the loop body on concrete
    inputs: a body, a spare-parts count, the held keys and the food cells;
    both deadlines are at time 0. *)

Definition position (body : list Cell) (spare : Z) (held : list Direction)
    (cells : list Cell) : GameState :=
  {| snake := body; spare_parts := spare; direction := held;
     last_direction := UP; food := list_to_set cells;
     next_food := 0; next_frame := 0; running := true; paused := false |}.

(** The body of the self-collision example, two parts pending, Down held. *)
Definition turning_back : GameState :=
  position [(5, 5); (5, 6); (5, 7)] 2 [DOWN] [].

(** The same body, two parts pending, no key held (so heading up). *)
Definition growing : GameState :=
  position [(5, 5); (5, 6); (5, 7)] 2 [] [].

(** Head in the first column, Left held. *)
Definition at_left_edge : GameState :=
  position [(0, 5); (1, 5); (2, 5)] 0 [LEFT] [].

(** On a 120 x 67 world: the body went down the last column, stepped right
    across the edge into the first column and turned up; Left is held, so
    the head is about to cross the edge back onto the cell (119, 5). *)
Definition across_the_edge : GameState :=
  position [(0, 5); (0, 6); (119, 6); (119, 5); (119, 4)] 0 [LEFT] [].

(** Food on (6, 5) and on (2, 2), head on (5, 5), Right held. *)
Definition about_to_eat : GameState :=
  position [(5, 5); (4, 5); (3, 5)] 0 [RIGHT] [(6, 5); (2, 2)].

(** A pass at time 0 with no events; a food cell is drawn on (8, 8). *)
Definition quiet_pass : Input :=
  {| events := []; current := 0; food_x := 8; food_y := 8;
     food_choice := 2; food_jitter := 1 # 2 |}.

(** Seventeen passes of a game started at time 0, one every sixteenth of a
    second and none handling an event.  The first draws food on (3, 4) and
    a delay of 1 + 1/32 seconds to the next food. *)
Definition frame_pass (k : Z) : Input :=
  {| events := []; current := k # 16; food_x := 3; food_y := 4;
     food_choice := 1; food_jitter := 1 # 32 |}.

Definition first_second : list Input := frame_pass <$> seqZ 0 17.

(** A pass at time 1 + 1/32 drawing food on (7, 7). *)
Definition between_frames : Input :=
  {| events := []; current := 33 # 32; food_x := 7; food_y := 7;
     food_choice := 3; food_jitter := 1 # 4 |}.

(** A pass at time 0 drawing food on the cell (40, 4), one column past the
    last column of a 40 x 30 world. *)
Definition border_draw : Input :=
  {| events := []; current := 0; food_x := 40; food_y := 4;
     food_choice := 1; food_jitter := 1 # 32 |}.

(** A body coiled in a square, one part pending, Down held: the head on
    (0, 0) is about to step onto (0, 1), the cell of the last segment. *)
Definition chasing_tail : GameState :=
  position [(0, 0); (1, 0); (1, 1); (0, 1)] 1 [DOWN] [].

(** Readings for events that are not the pause key. *)
Definition no_reading : Reading :=
  {| time_food := 0; choice := 1; jitter := 0; time_frame := 0 |}.

(** A pass at time 0 whose events are: W pressed, the window closed, A
    released. *)
Definition quitting_pass : Input :=
  {| events := [(no_reading, KEYDOWN K_w); (no_reading, QUIT);
                (no_reading, KEYUP K_a)];
     current := 0; food_x := 3; food_y := 4;
     food_choice := 1; food_jitter := 0 |}.

(** A new game on a 40 x 30 world, paused. *)
Definition paused_game : GameState := set_paused true (initial 40 30 0 0).

(** A new game on a 40 x 30 world with W and then D held. *)
Definition two_keys_held : GameState :=
  press RIGHT (press UP (initial 40 30 0 0)).


(** The pass of frame [k] of a game started at time 0, with one key
    pressed. *)
Definition key_pass (k : Z) (key : Key) : Input :=
  {| events := [(no_reading, KEYDOWN key)]; current := k # 16;
     food_x := 3; food_y := 4; food_choice := 1; food_jitter := 1 # 32 |}.

(** A game on a 120 x 67 world: D is pressed at the start, the snake runs
    right for sixty frames, and A is pressed in the sixty-first. *)
Definition edge_game : list Input :=
  key_pass 0 K_d :: (frame_pass <$> seqZ 1 59) ++ [key_pass 60 K_a].

(** The first pass of a game on a 40 x 30 world, drawing food on (20, 14),
    the cell above the head. *)
Definition eating_start : Input :=
  {| events := []; current := 0; food_x := 20; food_y := 14;
     food_choice := 1; food_jitter := 1 # 32 |}.

(** * Properties *)

(** ** The error monad *)

Lemma bind_Ok_inv {A B} (m : result A) (f : A → result B) (b : B) :
  m ≫= f = Ok b → ∃ a, m = Ok a ∧ f a = Ok b.
Proof. destruct m as [a|e]; [eauto | discriminate]. Qed.

Ltac inv_bind H :=
  let a := fresh "a" in
  let Ha := fresh "Ha" in
  apply bind_Ok_inv in H as (a & Ha & H).

(** ** The shift loop *)

Lemma shift_from_length (n : nat) (l : list Cell) :
  length (shift_from n l) = length l.
Proof.
  revert l; induction n as [|n IH]; intros l; simpl; [done|].
  rewrite IH. destruct (l !! n); [apply length_insert | done].
Qed.

Lemma shift_from_lookup_0 (n : nat) (l : list Cell) :
  shift_from n l !! 0%nat = l !! 0%nat.
Proof.
  revert l; induction n as [|n IH]; intros l; simpl; [done|].
  rewrite IH. destruct (l !! n); [|done].
  by rewrite list_lookup_insert_ne.
Qed.

Lemma shift_from_Forall (P : Cell → Prop) (n : nat) (l : list Cell) :
  Forall P l → Forall P (shift_from n l).
Proof.
  revert l; induction n as [|n IH]; intros l Hl; simpl; [done|].
  apply IH. destruct (l !! n) as [c|] eqn:Hc; [|done].
  apply Forall_insert; [done|].
  eapply Forall_lookup_1; eauto.
Qed.

(** The loop in closed form: positions [1..n] receive what was at
    [0..n-1]; position [0] and the positions after [n] are untouched. *)
Lemma shift_from_spec (n : nat) (l : list Cell) :
  (n < length l)%nat →
  shift_from n l = take 1 l ++ take n l ++ drop (S n) l.
Proof.
  revert l; induction n as [|n IH]; intros l Hn; simpl shift_from.
  - by rewrite take_0, app_nil_l, take_drop.
  - destruct (lookup_lt_is_Some_2 l n) as [c Hc]; [lia|].
    destruct (lookup_lt_is_Some_2 l (S n)) as [c' Hc']; [lia|].
    rewrite Hc, IH by (rewrite length_insert; lia).
    rewrite !take_insert_ge by lia.
    rewrite drop_insert_ge by lia.
    rewrite (drop_S l c' (S n)) by done.
    replace (S n - S n)%nat with 0%nat by lia. simpl insert.
    by rewrite (take_S_r l n c), <- !app_assoc by done.
Qed.

Lemma shift_body_cons (h : Cell) (t : list Cell) :
  shift_body (h :: t) = h :: removelast (h :: t).
Proof.
  unfold shift_body. rewrite shift_from_spec by (simpl; lia).
  rewrite removelast_firstn_len.
  replace (length (h :: t) - 1)%nat with (length t) by (simpl; lia).
  rewrite drop_ge by (simpl; lia). rewrite app_nil_r.
  done.
Qed.

Lemma shift_body_length (l : list Cell) : length (shift_body l) = length l.
Proof. apply shift_from_length. Qed.

Lemma shift_body_lookup_0 (l : list Cell) : shift_body l !! 0%nat = l !! 0%nat.
Proof. apply shift_from_lookup_0. Qed.

(** ** Directions *)

Lemma vector_value (d : Direction) :
  Direction.vector (Direction.value d) =
  Some match d with
       | UP => (0, -1)
       | RIGHT => (1, 0)
       | DOWN => (0, 1)
       | LEFT => (-1, 0)
       end.
Proof. by destruct d. Qed.

(** ** Reading the clock *)

Lemma Qlt_bool_iff (a b : Q) : Qlt_bool a b = true ↔ (a < b)%Q.
Proof.
  unfold Qlt_bool. rewrite negb_true_iff, <- not_true_iff_false, Qle_bool_iff.
  split; [apply Qnot_le_lt | apply Qlt_not_le].
Qed.

(** ** The snake update, case by case *)

Section Advance.

Variables world_width world_height : Z.

Lemma wrap_Ok_inv (c c' : Cell) :
  wrap world_width world_height c = Ok c' →
  world_width ≠ 0 ∧ world_height ≠ 0 ∧
  c' = (c.1 `mod` world_width, c.2 `mod` world_height).
Proof.
  unfold wrap. intros H.
  destruct (world_width =? 0) eqn:Hw, (world_height =? 0) eqn:Hh;
    simpl in H; try discriminate.
  injection H as <-. split_and!; [lia | lia | done].
Qed.

(** What a surviving update did to the state. *)
Lemma advance_Alive_inv (st st' : GameState) :
  advance world_width world_height st = Ok (Alive st') →
  ∃ last_body head v,
    last (snake st) = Some last_body ∧
    snake st !! 0%nat = Some head ∧
    Direction.vector (Direction.value (current_direction st)) = Some v ∧
    world_width ≠ 0 ∧ world_height ≠ 0 ∧
    (count (add_vectors head v)
       (<[0%nat := add_vectors head v]> (shift_body (snake st))) ≤ 1)%nat ∧
    let wrapped := ((head.1 + v.1) `mod` world_width,
                    (head.2 + v.2) `mod` world_height) in
    let body := <[0%nat := wrapped]> (shift_body (snake st)) in
    st' = if 0 <? spare_parts st then
            set_spare_parts (spare_parts st - 1)
              (set_snake (body ++ [last_body]) (set_snake body st))
          else set_snake body st.
Proof.
  unfold advance. intros H.
  destruct (last (snake st)) as [last_body|]; [|discriminate].
  rewrite shift_body_lookup_0 in H.
  destruct (snake st !! 0%nat) as [head|]; [|discriminate].
  destruct (Direction.vector _) as [v|]; [|discriminate].
  destruct (1 <? _)%nat eqn:Hcount; [discriminate|].
  apply Nat.ltb_ge in Hcount.
  inv_bind H. apply wrap_Ok_inv in Ha as (Hw & Hh & ->).
  injection H as <-.
  exists last_body, head, v. split_and!; try done.
  simpl. by rewrite list_insert_insert_eq.
Qed.

(** What the collision branch did to the state. *)
Lemma advance_Dead_inv (st st' : GameState) :
  advance world_width world_height st = Ok (Dead st') →
  ∃ head v,
    snake st !! 0%nat = Some head ∧
    Direction.vector (Direction.value (current_direction st)) = Some v ∧
    (1 < count (add_vectors head v)
           (<[0%nat := add_vectors head v]> (shift_body (snake st))))%nat ∧
    st' = set_running false
            (set_snake (<[0%nat := add_vectors head v]> (shift_body (snake st))) st).
Proof.
  unfold advance. intros H.
  destruct (last (snake st)) as [last_body|]; [|discriminate].
  rewrite shift_body_lookup_0 in H.
  destruct (snake st !! 0%nat) as [head|]; [|discriminate].
  destruct (Direction.vector _) as [v|]; [|discriminate].
  destruct (1 <? _)%nat eqn:Hcount.
  - injection H as <-. apply Nat.ltb_lt in Hcount. by exists head, v.
  - inv_bind H. discriminate.
Qed.

End Advance.

(** ** The input buffer *)

Lemma movement_cases (key : Key) (d : Direction) :
  (key, d) ∈ movement →
  (key = K_w ∧ d = UP) ∨ (key = K_a ∧ d = LEFT) ∨
  (key = K_s ∧ d = DOWN) ∨ (key = K_d ∧ d = RIGHT).
Proof.
  unfold movement. rewrite !elem_of_cons, elem_of_nil.
  intros [H|[H|[H|[H|[]]]]]; injection H as -> ->; tauto.
Qed.

Lemma handle_event_KEYUP (rd : Reading) (key : Key) (d : Direction) (st : GameState) :
  (key, d) ∈ movement →
  handle_event rd (KEYUP key) st = st' ← release d st; Ok (Next, st').
Proof.
  intros H. by destruct (movement_cases _ _ H) as [[-> ->]|[[-> ->]|[[-> ->]|[-> ->]]]].
Qed.

Lemma list_remove_elem_of (x : Direction) (l : list Direction) :
  x ∈ l → ∃ l', list_remove x l = Ok l'.
Proof.
  induction l as [|y l IH]; [by intros ?%elem_of_nil|].
  intros Hx. simpl. destruct (decide (y = x)) as [->|Hne]; [eauto|].
  apply elem_of_cons in Hx as [->|Hx]; [done|].
  destruct (IH Hx) as [l' ->]. simpl. eauto.
Qed.

Lemma list_remove_not_elem_of (x : Direction) (l : list Direction) :
  x ∉ l → list_remove x l = Raise ValueError.
Proof.
  induction l as [|y l IH]; [done|].
  intros Hx. apply not_elem_of_cons in Hx as [Hne Hx]. simpl.
  destruct (decide (y = x)) as [->|_]; [done|]. by rewrite IH.
Qed.

Lemma list_remove_Raise (x : Direction) (l : list Direction) (e : exn) :
  list_remove x l = Raise e → e = ValueError ∧ x ∉ l.
Proof.
  destruct (decide (x ∈ l)) as [Hx|Hx].
  - destruct (list_remove_elem_of _ _ Hx) as [l' ->]. discriminate.
  - rewrite list_remove_not_elem_of by done. by intros [= <-].
Qed.

(** The first occurrence goes, the rest stays in order. *)
Lemma list_remove_middle (x : Direction) (l1 l2 : list Direction) :
  x ∉ l1 → list_remove x (l1 ++ x :: l2) = Ok (l1 ++ l2).
Proof.
  induction l1 as [|y l1 IH]; intros Hx; simpl.
  - by rewrite decide_True.
  - apply not_elem_of_cons in Hx as [Hne Hx].
    rewrite decide_False by done. by rewrite IH.
Qed.

Lemma release_Raise (d : Direction) (st : GameState) (e : exn) :
  release d st = Raise e → e = ValueError ∧ d ∉ direction st.
Proof.
  unfold release. destruct (list_remove d (direction st)) eqn:H; [discriminate|].
  intros [= <-]. by apply list_remove_Raise.
Qed.

Lemma release_direction (d : Direction) (st st' : GameState) :
  release d st = Ok st' →
  list_remove d (direction st) = Ok (direction st') ∧
  last_direction st' =
    (if (length (direction st') =? 0)%nat then d else last_direction st).
Proof.
  unfold release. intros H. inv_bind H. injection H as <-.
  by destruct (length a =? 0)%nat eqn:Hlen; simpl; rewrite ?Hlen.
Qed.

Lemma current_direction_held (st : GameState) (held : list Direction) (d : Direction) :
  direction st = held ++ [d] → current_direction st = d.
Proof.
  unfold current_direction. intros ->.
  rewrite length_app, last_last. simpl.
  by replace (length held + 1)%nat with (S (length held)) by lia.
Qed.

Lemma current_direction_idle (st : GameState) :
  direction st = [] → current_direction st = last_direction st.
Proof. unfold current_direction. by intros ->. Qed.

(** ** The tick leaves the input buffer alone *)

Section Buffer.

Variables world_width world_height : Z.

Lemma spawn_food_buffer (inp : Input) (st st' : GameState) :
  spawn_food world_width world_height inp st = Ok st' →
  direction st' = direction st ∧ last_direction st' = last_direction st.
Proof.
  unfold spawn_food. intros H.
  destruct (Qle_bool _ _); [|by injection H as <-].
  destruct (_ || _); [discriminate|]. by injection H as <-.
Qed.

Lemma advance_buffer (st : GameState) (o : Outcome) :
  advance world_width world_height st = Ok o →
  match o with
  | Alive st' | Dead st' =>
      direction st' = direction st ∧ last_direction st' = last_direction st
  end.
Proof.
  destruct o as [st'|st']; intros H.
  - apply advance_Alive_inv in H as (? & ? & ? & _ & _ & _ & _ & _ & _ & ->).
    simpl. by destruct (0 <? spare_parts st).
  - by apply advance_Dead_inv in H as (? & ? & _ & _ & _ & ->).
Qed.

Lemma eat_buffer (st st' : GameState) :
  eat st = Ok st' →
  direction st' = direction st ∧ last_direction st' = last_direction st.
Proof.
  unfold eat. destruct (snake st !! 0%nat); [|discriminate].
  intros [= <-]. by destruct (decide _).
Qed.

Lemma update_buffer (inp : Input) (st st' : GameState) :
  update world_width world_height inp st = Ok st' →
  direction st' = direction st ∧ last_direction st' = last_direction st.
Proof.
  unfold update. intros H.
  destruct (paused st); [by injection H as <-|].
  inv_bind H. apply spawn_food_buffer in Ha as [<- <-].
  destruct (Qlt_bool _ _); [by injection H as <-|].
  inv_bind H. apply advance_buffer in Ha.
  destruct a0 as [st1|st1]; [apply eat_buffer in H as [-> ->]|injection H as <-];
    by destruct Ha as [-> ->].
Qed.

End Buffer.

(** ** Events that leave the input buffer alone *)

Lemma movement_keys :
  (K_w, UP) ∈ movement ∧ (K_a, LEFT) ∈ movement ∧
  (K_s, DOWN) ∈ movement ∧ (K_d, RIGHT) ∈ movement.
Proof. unfold movement. rewrite !elem_of_cons. tauto. Qed.

Lemma handle_event_buffer (rd : Reading) (event : Event) (st st' : GameState) (f : Flow) :
  (∀ key d, (key, d) ∈ movement → event ≠ KEYDOWN key ∧ event ≠ KEYUP key) →
  handle_event rd event st = Ok (f, st') →
  direction st' = direction st ∧ last_direction st' = last_direction st.
Proof.
  intros Hother. destruct movement_keys as (Hw & Ha & Hs & Hd).
  destruct event as [|[]|[]|]; simpl;
    try (by intros [= <- <-]);
    exfalso;
    first [ by destruct (Hother _ _ Hw) | by destruct (Hother _ _ Ha)
          | by destruct (Hother _ _ Hs) | by destruct (Hother _ _ Hd) ].
Qed.

Lemma handle_events_buffer (events : list (Reading * Event)) (st st' : GameState) :
  Forall (λ re, ∀ key d, (key, d) ∈ movement →
                         re.2 ≠ KEYDOWN key ∧ re.2 ≠ KEYUP key) events →
  handle_events events st = Ok st' →
  direction st' = direction st ∧ last_direction st' = last_direction st.
Proof.
  revert st. induction events as [|[rd event] events IH]; intros st Hev.
  - by intros [= <-].
  - apply Forall_cons in Hev as [Hother Hev]. cbn [handle_events].
    intros H. inv_bind H. destruct a as [f st1].
    apply (handle_event_buffer _ _ _ _ _ Hother) in Ha as [Hd Hl].
    destruct f; [apply (IH _ Hev) in H as [-> ->]|injection H as <-]; done.
Qed.

(** ** Claims about the geometry and the input buffer *)

(** C7: [Direction.reversed] holds exactly of the pairs UP/DOWN and
    LEFT/RIGHT, in either order; it is symmetric in its two arguments and
    never holds of a direction and itself. *)
Theorem reversed_exactly_opposites (d1 d2 : Direction) :
  (Direction.reversed (Direction.value d1) (Direction.value d2) = true ↔
     (d1 = UP ∧ d2 = DOWN) ∨ (d1 = DOWN ∧ d2 = UP) ∨
     (d1 = LEFT ∧ d2 = RIGHT) ∨ (d1 = RIGHT ∧ d2 = LEFT)) ∧
  Direction.reversed (Direction.value d1) (Direction.value d2) =
    Direction.reversed (Direction.value d2) (Direction.value d1) ∧
  Direction.reversed (Direction.value d1) (Direction.value d1) = false.
Proof.
  split_and!.
  - destruct d1, d2; vm_compute; split;
      first [ discriminate | tauto | intros [[? ?]|[[? ?]|[[? ?]|[? ?]]]]; discriminate ].
  - unfold Direction.reversed. by rewrite Z.min_comm, Z.max_comm.
  - unfold Direction.reversed. rewrite Z.min_id, Z.max_id. lia.
Qed.

(** C6: the direction used by a tick is the last element of the held list
    when a key is held and [last_direction] otherwise.  Pressing Up, then
    Right, then releasing Right leaves Up in effect.  A release that
    empties the held list leaves the released direction in effect, and a
    pass of the loop that handles no press or release of a movement key
    keeps the direction in effect. *)
Theorem effective_direction_held_or_last_released :
  (∀ st held d, direction st = held ++ [d] → current_direction st = d) ∧
  (∀ st, direction st = [] → current_direction st = last_direction st) ∧
  (∀ st rd1 rd2 rd3,
     RIGHT ∉ direction st →
     ∃ st', handle_events
              [(rd1, KEYDOWN K_w); (rd2, KEYDOWN K_d); (rd3, KEYUP K_d)] st = Ok st' ∧
            direction st' = direction st ++ [UP] ∧
            current_direction st' = UP) ∧
  (∀ rd key d st st',
     (key, d) ∈ movement →
     handle_event rd (KEYUP key) st = Ok (Next, st') →
     direction st' = [] →
     current_direction st' = d) ∧
  (∀ world_width world_height inp st st',
     Forall (λ re, ∀ key d, (key, d) ∈ movement →
                            re.2 ≠ KEYDOWN key ∧ re.2 ≠ KEYUP key) (events inp) →
     iteration world_width world_height inp st = Ok st' →
     current_direction st' = current_direction st).
Proof.
  split_and!.
  - apply current_direction_held.
  - apply current_direction_idle.
  - intros st rd1 rd2 rd3 Hright.
    exists (set_direction (direction st ++ [UP]) st). split_and!.
    + simpl. unfold release, press. simpl.
      rewrite (list_remove_middle RIGHT (direction st ++ [UP]) [])
        by (rewrite not_elem_of_app, not_elem_of_cons, elem_of_nil; naive_solver).
      simpl. rewrite app_nil_r.
      replace (length (direction st ++ [UP]) =? 0)%nat with false; [done|].
      symmetry. apply Nat.eqb_neq. rewrite length_app. simpl. lia.
    + done.
    + by eapply current_direction_held.
  - intros rd key d st st' Hkey H Hempty.
    rewrite (handle_event_KEYUP _ _ _ _ Hkey) in H.
    inv_bind H. injection H as ->.
    apply release_direction in Ha as [_ Hlast].
    rewrite current_direction_idle, Hlast by done. by rewrite Hempty.
  - intros W H inp st st' Hev Hit. unfold iteration in Hit. inv_bind Hit.
    apply (handle_events_buffer _ _ _ Hev) in Ha as [Hd' Hl'].
    apply update_buffer in Hit as [Hd Hl].
    unfold current_direction. by rewrite Hd, Hl, Hd', Hl'.
Qed.

(** C6, run on the initial state of a 40 x 30 world: Up and Right are
    pressed and Right is released in one pass, with the frame not yet due. *)
Lemma effective_direction_witness :
  ∃ st', handle_events
           [({| time_food := 0; choice := 1; jitter := 0; time_frame := 0 |}, KEYDOWN K_w);
            ({| time_food := 0; choice := 1; jitter := 0; time_frame := 0 |}, KEYDOWN K_d);
            ({| time_food := 0; choice := 1; jitter := 0; time_frame := 0 |}, KEYUP K_d)]
           (initial 40 30 0 0) = Ok st' ∧
         direction st' = direction (initial 40 30 0 0) ++ [UP] ∧
         current_direction st' = UP.
Proof.
  destruct effective_direction_held_or_last_released as (_ & _ & H & _).
  apply H. simpl. apply not_elem_of_nil.
Defined.

Lemma handle_event_Raise (rd : Reading) (event : Event) (st : GameState) (e : exn) :
  handle_event rd event st = Raise e →
  e = ValueError ∧
  ∃ key d, event = KEYUP key ∧ (key, d) ∈ movement ∧ d ∉ direction st.
Proof.
  unfold movement.
  destruct event as [|[]|[]|]; simpl; try discriminate;
    destruct (release _ st) eqn:Hrel; try discriminate;
    intros [= <-]; apply release_Raise in Hrel as [-> Hd];
    (split; [done|]); eexists _, _; (split; [done|]); (split; [|done]);
    set_solver.
Qed.

(** C3, as the code has it: an event whose type or key the loop does not
    know is skipped and changes nothing.  A key-release of a movement key
    whose direction is in the held list is handled without error.  A
    key-release of a movement key whose direction is not in the held list
    is not skipped:
    [direction.remove] raises [ValueError], nothing catches it, and the
    remaining events are not handled.  The event loop raises in no other
    way. *)
Theorem unexpected_events_skipped_except_unheld_release :
  (∀ rd event st,
     event ∈ [OtherEvent; KEYDOWN K_other; KEYUP K_other; KEYUP K_ESCAPE; KEYUP K_SPACE] →
     handle_event rd event st = Ok (Next, st)) ∧
  (∀ rd key d st,
     (key, d) ∈ movement → d ∈ direction st →
     ∃ st', handle_event rd (KEYUP key) st = Ok (Next, st')) ∧
  (∀ rd key d st rest,
     (key, d) ∈ movement → d ∉ direction st →
     handle_events ((rd, KEYUP key) :: rest) st = Raise ValueError) ∧
  (∀ events st e,
     handle_events events st = Raise e →
     e = ValueError ∧
     ∃ before rd key d rest st1,
       events = before ++ (rd, KEYUP key) :: rest ∧
       (key, d) ∈ movement ∧
       handle_events before st = Ok st1 ∧
       d ∉ direction st1).
Proof.
  split_and!.
  - intros rd event st. rewrite !elem_of_cons, elem_of_nil.
    by intros [->|[->|[->|[->|[->|[]]]]]].
  - intros rd key d st Hkey Hd.
    rewrite (handle_event_KEYUP _ _ _ _ Hkey). unfold release.
    destruct (list_remove_elem_of _ _ Hd) as [held ->]. simpl. eauto.
  - intros rd key d st rest Hkey Hd. cbn [handle_events].
    rewrite (handle_event_KEYUP _ _ _ _ Hkey). unfold release.
    by rewrite list_remove_not_elem_of.
  - intros events. induction events as [|[rd event] events IH]; intros st e; [done|].
    cbn [handle_events].
    destruct (handle_event rd event st) as [[[] st']|e'] eqn:Hev; simpl.
    + intros H. destruct (IH _ _ H) as (-> & before & rd' & key & d & rest & st1 & -> & Hkey & Hbefore & Hd).
      split; [done|].
      exists ((rd, event) :: before), rd', key, d, rest, st1.
      split_and!; try done. simpl. by rewrite Hev.
    + discriminate.
    + intros [= <-].
      apply handle_event_Raise in Hev as (-> & key & d & -> & Hkey & Hd).
      split; [done|]. by exists [], rd, key, d, events, st.
Qed.

(** C3 fails as stated: in the initial state no key is held, and the
    release of W ends the pass with a [ValueError]. *)
Lemma unheld_release_raises :
  iteration 40 30
    {| events := [({| time_food := 0; choice := 1; jitter := 0; time_frame := 0 |}, KEYUP K_w)];
       current := 0; food_x := 3; food_y := 4; food_choice := 1; food_jitter := 0 |}
    (initial 40 30 0 0)
  = Raise ValueError.
Proof. reflexivity. Qed.

(** ** Claims about the snake update *)

Section Snake.

Variables world_width world_height : Z.

(** C4, as the code has it: an update that leaves the snake alive keeps
    the length of the body when [spare_parts] is not positive, and
    otherwise makes the body one longer and [spare_parts] one less.  An
    update that ends in the collision branch keeps both the length and
    [spare_parts], whatever [spare_parts] is. *)
Theorem advance_length (st : GameState) (o : Outcome) :
  advance world_width world_height st = Ok o →
  match o with
  | Alive st' =>
      if 0 <? spare_parts st then
        length (snake st') = S (length (snake st)) ∧
        spare_parts st' = spare_parts st - 1
      else
        length (snake st') = length (snake st) ∧
        spare_parts st' = spare_parts st
  | Dead st' =>
      length (snake st') = length (snake st) ∧
      spare_parts st' = spare_parts st
  end.
Proof.
  destruct o as [st'|st']; intros H.
  - apply advance_Alive_inv in H as (? & ? & ? & _ & _ & _ & _ & _ & _ & ->).
    destruct (0 <? spare_parts st); simpl;
      rewrite ?length_app, length_insert, shift_body_length; simpl; split; lia.
  - apply advance_Dead_inv in H as (? & ? & _ & _ & _ & ->). simpl.
    by rewrite length_insert, shift_body_length.
Qed.

End Snake.

(** C4, run on the sample body with two parts pending and no key held: the
    snake survives the step up, is one longer and has one part less
    pending. *)
Lemma advance_length_witness :
  ∃ st', advance 10 10 growing = Ok (Alive st') ∧
         length (snake st') = S (length (snake growing)) ∧
         spare_parts st' = spare_parts growing - 1.
Proof.
  eexists. split; [reflexivity|].
  exact (advance_length 10 10 growing (Alive _) eq_refl).
Defined.

(** C4 fails as stated: with two parts pending the snake turns back onto
    its second segment; the update ends in the collision branch, the body
    still has three cells and both parts are still pending. *)
Lemma dying_advance_does_not_grow :
  ∃ st', advance 10 10 turning_back = Ok (Dead st') ∧
         0 < spare_parts turning_back ∧
         snake st' = [(5, 6); (5, 5); (5, 6)] ∧
         length (snake st') ≠ S (length (snake turning_back)) ∧
         spare_parts st' = 2.
Proof. eexists. split; [reflexivity|]. by vm_compute. Qed.

Lemma advance_Alive_head (world_width world_height : Z) (st st' : GameState) :
  advance world_width world_height st = Ok (Alive st') →
  ∃ head v,
    snake st !! 0%nat = Some head ∧
    Direction.vector (Direction.value (current_direction st)) = Some v ∧
    world_width ≠ 0 ∧ world_height ≠ 0 ∧
    snake st' !! 0%nat = Some ((head.1 + v.1) `mod` world_width,
                               (head.2 + v.2) `mod` world_height).
Proof.
  intros H.
  apply advance_Alive_inv in H as (last_body & head & v & _ & Hhead & Hv & Hw & Hh & _ & ->).
  exists head, v. split_and!; try done.
  assert (0 < length (shift_body (snake st)))%nat as Hlen.
  { rewrite shift_body_length. by apply lookup_lt_Some in Hhead. }
  destruct (0 <? spare_parts st); simpl.
  - rewrite lookup_app_l by (by rewrite length_insert).
    by apply list_lookup_insert_eq.
  - by apply list_lookup_insert_eq.
Qed.

(** C8: in a world of positive width and height, an update that leaves
    the snake alive takes a head in column 0 heading left to column
    [world_width - 1] and a head in column [world_width - 1] heading right
    to column 0; likewise a head in row 0 heading up goes to row
    [world_height - 1] and a head in row [world_height - 1] heading down to
    row 0. *)
Theorem advance_wraps_at_edges (world_width world_height : Z)
    (st st' : GameState) (x y : Z) :
  0 < world_width → 0 < world_height →
  snake st !! 0%nat = Some (x, y) →
  advance world_width world_height st = Ok (Alive st') →
  ∃ x' y',
    snake st' !! 0%nat = Some (x', y') ∧
    (current_direction st = LEFT → x = 0 → x' = world_width - 1) ∧
    (current_direction st = RIGHT → x = world_width - 1 → x' = 0) ∧
    (current_direction st = UP → y = 0 → y' = world_height - 1) ∧
    (current_direction st = DOWN → y = world_height - 1 → y' = 0).
Proof.
  intros Hw Hh Hhead H.
  apply advance_Alive_head in H as (head & v & Hhead' & Hv & _ & _ & ->).
  rewrite Hhead in Hhead'. injection Hhead' as <-.
  eexists _, _. split; [done|]. simpl.
  split_and!; intros Hd ->; rewrite Hd in Hv; injection Hv as <-; simpl.
  - symmetry. apply (Z.mod_unique _ _ (-1)); lia.
  - replace (world_width - 1 + 1) with world_width by lia. apply Z_mod_same_full.
  - symmetry. apply (Z.mod_unique _ _ (-1)); lia.
  - replace (world_height - 1 + 1) with world_height by lia. apply Z_mod_same_full.
Qed.

(** C8, run on a 10 x 10 world with the head on (0, 5) and Left held: the
    new head is in column 9. *)
Lemma advance_wraps_witness :
  ∃ x' y',
    snake (set_snake [(9, 5); (0, 5); (1, 5)] at_left_edge) !! 0%nat = Some (x', y') ∧
    (current_direction at_left_edge = LEFT → 0 = 0 → x' = 10 - 1) ∧
    (current_direction at_left_edge = RIGHT → 0 = 10 - 1 → x' = 0) ∧
    (current_direction at_left_edge = UP → 5 = 0 → y' = 10 - 1) ∧
    (current_direction at_left_edge = DOWN → 5 = 10 - 1 → y' = 0).
Proof.
  apply (advance_wraps_at_edges 10 10 at_left_edge); [lia | lia | reflexivity | reflexivity].
Defined.

(** C1 at the sample position on the 120 x 67 world: the head steps left
    from column 0.  The count on line 177 sees the cell (-1, 5), which no
    segment occupies, so the snake stays alive; line 182 then wraps the
    head to (119, 5), the cell of the last segment. *)
Lemma wrapped_head_on_body_survives :
  ∃ st', advance 120 67 across_the_edge = Ok (Alive st') ∧
         snake st' = [(119, 5); (0, 5); (0, 6); (119, 6); (119, 5)] ∧
         count (119, 5) (snake st') = 2%nat ∧
         running st' = true.
Proof. eexists. split; [reflexivity|]. by vm_compute. Qed.

(** ** Claims about food *)

Lemma advance_food (world_width world_height : Z) (st : GameState) (o : Outcome) :
  advance world_width world_height st = Ok o →
  match o with Alive st' | Dead st' => food st' = food st end.
Proof.
  destruct o as [st'|st']; intros H.
  - apply advance_Alive_inv in H as (? & ? & ? & _ & _ & _ & _ & _ & _ & ->).
    by destruct (0 <? spare_parts st).
  - by apply advance_Dead_inv in H as (? & ? & _ & _ & _ & ->).
Qed.

Lemma eat_spec (st : GameState) (head : Cell) :
  snake st !! 0%nat = Some head →
  eat st = Ok (if decide (head ∈ food st) then
                 set_food (food st ∖ {[ head ]})
                   (set_spare_parts (spare_parts st + PARTS_AFTER_FOOD) st)
               else st).
Proof. unfold eat. by intros ->. Qed.

(** C5: on a pass that is not paused and whose frame is due, when the
    snake update leaves the snake alive with its head on a food cell, the
    pass ends with that cell taken out of the food set, every other food
    cell still in it, and [spare_parts] 3 above its value after the
    update; the body is as the update left it. *)
Theorem eaten_food_removed (world_width world_height : Z) (inp : Input)
    (st st0 st1 : GameState) (head : Cell) :
  paused st = false →
  spawn_food world_width world_height inp st = Ok st0 →
  (next_frame st0 <= current inp)%Q →
  advance world_width world_height
    (set_next_frame (next_frame st0 + interval)%Q st0) = Ok (Alive st1) →
  snake st1 !! 0%nat = Some head →
  head ∈ food st1 →
  ∃ st2,
    update world_width world_height inp st = Ok st2 ∧
    food st2 = food st1 ∖ {[ head ]} ∧
    (head ∉ food st2) ∧
    (∀ c, c ≠ head → c ∈ food st1 → c ∈ food st2) ∧
    spare_parts st2 = spare_parts st1 + 3 ∧
    snake st2 = snake st1.
Proof.
  intros Hpaused Hspawn Hdue Hadv Hhead Hfood.
  exists (set_food (food st1 ∖ {[ head ]})
            (set_spare_parts (spare_parts st1 + PARTS_AFTER_FOOD) st1)).
  split_and!; try done.
  2: { simpl. apply not_elem_of_difference. right. by apply elem_of_singleton. }
  2: { intros c Hne Hc. simpl. apply elem_of_difference. split; [done|].
       by rewrite elem_of_singleton. }
  unfold update. rewrite Hpaused, Hspawn. simpl.
  replace (Qlt_bool (current inp) (next_frame st0)) with false.
  - rewrite Hadv. simpl. rewrite (eat_spec _ _ Hhead). by rewrite decide_True.
  - symmetry. apply not_true_iff_false. rewrite Qlt_bool_iff. by apply Qle_not_lt.
Qed.

(** C5, run on a 10 x 10 world: food on (6, 5) and (2, 2), the head steps
    right onto (6, 5) in a pass that also spawns food on (8, 8).  After the
    pass (6, 5) is gone, (2, 2) and (8, 8) remain and three parts are
    pending. *)
Lemma eaten_food_removed_witness :
  ∃ st2,
    update 10 10 quiet_pass about_to_eat = Ok st2 ∧
    ((6, 5) ∉ food st2) ∧ ((2, 2) ∈ food st2) ∧ ((8, 8) ∈ food st2) ∧
    spare_parts st2 = 3 ∧
    snake st2 = [(6, 5); (5, 5); (4, 5)].
Proof.
  edestruct (eaten_food_removed 10 10 quiet_pass about_to_eat)
    as (st2 & Hupdate & _ & Hgone & Hkept & Hspare & Hsnake).
  - reflexivity.
  - reflexivity.
  - unfold Qle. simpl. lia.
  - reflexivity.
  - reflexivity.
  - by vm_compute.
  - exists st2. split_and!; try done; apply Hkept; by vm_compute.
Defined.

(** ** What the event loop leaves alone *)

Lemma handle_event_frame (rd : Reading) (event : Event) (st st' : GameState) (f : Flow) :
  handle_event rd event st = Ok (f, st') →
  snake st' = snake st ∧ spare_parts st' = spare_parts st ∧ food st' = food st.
Proof.
  destruct event as [|[]|[]|]; simpl; intros H;
    try (by injection H as <- <-);
    inv_bind H; injection H as <- <-;
    unfold release in Ha; inv_bind Ha; injection Ha as <-;
    by destruct (length _ =? 0)%nat.
Qed.

Lemma handle_events_frame (events : list (Reading * Event)) (st st' : GameState) :
  handle_events events st = Ok st' →
  snake st' = snake st ∧ spare_parts st' = spare_parts st ∧ food st' = food st.
Proof.
  revert st. induction events as [|[rd event] events IH]; intros st.
  - by intros [= <-].
  - cbn [handle_events]. intros H. inv_bind H. destruct a as [f st1].
    apply handle_event_frame in Ha as (Hs & Hp & Hf).
    destruct f; [apply IH in H as (-> & -> & ->)|injection H as <-]; done.
Qed.

(** ** Where food comes from *)

Section Food.

Variables world_width world_height : Z.

Lemma spawn_food_due (inp : Input) (st : GameState) :
  (next_food st <= current inp)%Q →
  0 ≤ world_width → 0 ≤ world_height →
  spawn_food world_width world_height inp st =
  Ok (set_next_food
        (next_food st + get_next_food_time (food_choice inp) (food_jitter inp))%Q
        (set_food ({[ (food_x inp, food_y inp) ]} ∪ food st) st)).
Proof.
  intros Hdue Hw Hh. unfold spawn_food.
  apply Qle_bool_iff in Hdue as ->.
  replace (world_width <? 0) with false by (symmetry; apply Z.ltb_ge; lia).
  by replace (world_height <? 0) with false by (symmetry; apply Z.ltb_ge; lia).
Qed.

Lemma spawn_food_inv (inp : Input) (st st' : GameState) :
  spawn_food world_width world_height inp st = Ok st' →
  snake st' = snake st ∧ spare_parts st' = spare_parts st ∧
  paused st' = paused st ∧ next_frame st' = next_frame st ∧
  (food st' = food st ∨
   (next_food st <= current inp)%Q ∧
   food st' = {[ (food_x inp, food_y inp) ]} ∪ food st).
Proof.
  unfold spawn_food. intros H.
  destruct (Qle_bool _ _) eqn:Hdue; [|injection H as <-; tauto].
  destruct (_ || _); [discriminate|]. injection H as <-.
  apply Qle_bool_iff in Hdue. simpl. tauto.
Qed.

Lemma eat_inv (st st' : GameState) :
  eat st = Ok st' →
  snake st' = snake st ∧
  ((food st' = food st ∧ spare_parts st' = spare_parts st) ∨
   ∃ head, snake st !! 0%nat = Some head ∧ head ∈ food st ∧
           food st' = food st ∖ {[ head ]} ∧
           spare_parts st' = spare_parts st + 3).
Proof.
  unfold eat. destruct (snake st !! 0%nat) as [head|]; [|discriminate].
  intros [= <-]. destruct (decide _); simpl; [|tauto].
  split; [done|]. right. by exists head.
Qed.

(** A pass adds a cell to the food set only by the draw of line 156, on
    a pass that is not paused and has reached the food deadline. *)
Lemma update_new_food (inp : Input) (st st' : GameState) (c : Cell) :
  update world_width world_height inp st = Ok st' →
  c ∈ food st' → c ∉ food st →
  paused st = false ∧ (next_food st <= current inp)%Q ∧
  c = (food_x inp, food_y inp).
Proof.
  unfold update. intros H Hin Hout.
  destruct (paused st); [by injection H as <-|].
  inv_bind H. apply spawn_food_inv in Ha as (_ & _ & _ & _ & Hfood).
  assert (c ∈ food a) as Hc.
  { destruct (Qlt_bool _ _); [by injection H as <-|].
    inv_bind H. apply advance_food in Ha. simpl in Ha.
    destruct a0 as [st1|st1].
    - apply eat_inv in H as [_ [[Hf _]|(head & _ & _ & Hf & _)]];
        rewrite Hf, ?elem_of_difference in Hin; rewrite <- Ha; tauto.
    - injection H as <-. by rewrite <- Ha. }
  destruct Hfood as [Hf|[Hdue Hf]]; rewrite Hf in Hc; [done|].
  apply elem_of_union in Hc as [Hc%elem_of_singleton|Hc]; done.
Qed.

End Food.

(** The loop run on a list of inputs only visits states of [reachable]. *)
Lemma game_loop_reachable (world_width world_height : Z)
    (inputs : list Input) (st st' : GameState) :
  reachable world_width world_height st →
  Forall (input_ok world_width world_height) inputs →
  game_loop world_width world_height inputs st = Ok st' →
  reachable world_width world_height st'.
Proof.
  revert st. induction inputs as [|inp inputs IH]; intros st Hst Hok; simpl.
  - by intros [= <-].
  - apply Forall_cons in Hok as [Hinp Hok].
    destruct (running st) eqn:Hrun; [|by intros [= <-]].
    intros H. inv_bind H. eapply IH; [|done|done].
    by eapply reach_iteration.
Qed.

Lemma first_second_ok : Forall (input_ok 40 30) first_second.
Proof. repeat constructor; by vm_compute. Qed.

(** C2 fails as stated.  A game on a 40 x 30 world is started at time 0
    and runs a frame every sixteenth of a second; its first pass sets the
    food deadline to 1 + 1/32.  After the frame of time 1 the frame
    deadline is 1 + 1/16.  The next pass, at time 1 + 1/32, is before the
    frame deadline, and it adds the cell (7, 7) to the food set. *)
Lemma food_spawned_between_frames :
  ∃ st st',
    reachable 40 30 st ∧
    game_loop 40 30 first_second (initial 40 30 0 0) = Ok st ∧
    running st = true ∧ paused st = false ∧
    input_ok 40 30 between_frames ∧
    (current between_frames < next_frame st)%Q ∧
    iteration 40 30 between_frames st = Ok st' ∧
    ((7, 7) ∉ food st) ∧ ((7, 7) ∈ food st') ∧
    snake st' = snake st.
Proof.
  eexists _, _. split_and!.
  2: { vm_compute. reflexivity. }
  6: { vm_compute. reflexivity. }
  - eapply game_loop_reachable;
      [apply (reach_initial 40 30 0 0) | apply first_second_ok | by vm_compute].
  - reflexivity.
  - reflexivity.
  - repeat split; by vm_compute.
  - by vm_compute.
  - by vm_compute.
  - by vm_compute.
  - reflexivity.
Qed.

(** ** Invariants of the loop *)

Section Invariants.

Variables world_width world_height : Z.

Lemma advance_spare_parts (st : GameState) (o : Outcome) :
  advance world_width world_height st = Ok o →
  match o with
  | Alive st' =>
      spare_parts st' = (if 0 <? spare_parts st then spare_parts st - 1
                         else spare_parts st)
  | Dead st' => spare_parts st' = spare_parts st
  end.
Proof.
  destruct o as [st'|st']; intros H.
  - apply advance_Alive_inv in H as (? & ? & ? & _ & _ & _ & _ & _ & _ & ->).
    by destruct (0 <? spare_parts st).
  - by apply advance_Dead_inv in H as (? & ? & _ & _ & _ & ->).
Qed.

(** How one pass changes [spare_parts]: not at all, up by 3 (food
    eaten), or, only from a positive count, down by 1 (a part appended)
    or up by 2 (both). *)
Lemma iteration_spare_parts (inp : Input) (st st' : GameState) :
  iteration world_width world_height inp st = Ok st' →
  spare_parts st' = spare_parts st ∨
  spare_parts st' = spare_parts st + 3 ∨
  0 < spare_parts st ∧
  (spare_parts st' = spare_parts st - 1 ∨ spare_parts st' = spare_parts st + 2).
Proof.
  unfold iteration, update. intros H. inv_bind H.
  apply handle_events_frame in Ha as (_ & <- & _).
  destruct (paused a); [injection H as <-; tauto|].
  inv_bind H. apply spawn_food_inv in Ha as (_ & <- & _).
  destruct (Qlt_bool _ _); [injection H as <-; tauto|].
  inv_bind H. apply advance_spare_parts in Ha. simpl in Ha.
  destruct a1 as [st1|st1].
  - apply eat_inv in H as [_ [[_ Hs]|(_ & _ & _ & _ & Hs)]];
      rewrite Hs, Ha; destruct (0 <? spare_parts a0) eqn:Hpos;
      try apply Z.ltb_lt in Hpos; lia.
  - injection H as <-. tauto.
Qed.

(** C9: [spare_parts] is never negative in a state the loop can be in.
    It is 0 when the game starts, and a pass of the loop leaves it as it
    is, raises it by 3 (food eaten), or, only when it is positive, lowers
    it by 1 (a part appended) or raises it by 2 (both). *)
Theorem spare_parts_nonneg (st : GameState) :
  reachable world_width world_height st →
  0 ≤ spare_parts st ∧
  (∀ t_food t_frame,
     spare_parts (initial world_width world_height t_food t_frame) = 0) ∧
  (∀ inp st',
     iteration world_width world_height inp st = Ok st' →
     spare_parts st' = spare_parts st ∨
     spare_parts st' = spare_parts st + PARTS_AFTER_FOOD ∨
     0 < spare_parts st ∧
     (spare_parts st' = spare_parts st - 1 ∨
      spare_parts st' = spare_parts st - 1 + PARTS_AFTER_FOOD)).
Proof.
  intros Hreach. split_and!.
  - induction Hreach as [t_food t_frame|st st' inp _ IH _ _ Hit]; [done|].
    apply iteration_spare_parts in Hit. lia.
  - done.
  - intros inp st' Hit. apply iteration_spare_parts in Hit.
    unfold PARTS_AFTER_FOOD. lia.
Qed.

(** The wrapped head is a cell of the grid. *)
Lemma wrapped_in_grid (x y : Z) :
  0 < world_width → 0 < world_height →
  in_grid world_width world_height (x `mod` world_width, y `mod` world_height).
Proof.
  intros Hw Hh. simpl.
  pose proof (Z.mod_pos_bound x world_width Hw).
  pose proof (Z.mod_pos_bound y world_height Hh). lia.
Qed.

Lemma advance_Alive_in_grid (st st' : GameState) :
  0 < world_width → 0 < world_height →
  Forall (in_grid world_width world_height) (snake st) →
  advance world_width world_height st = Ok (Alive st') →
  Forall (in_grid world_width world_height) (snake st').
Proof.
  intros Hw Hh Hgrid H.
  apply advance_Alive_inv in H
    as (last_body & head & v & Hlast & _ & _ & _ & _ & _ & ->).
  assert (Forall (in_grid world_width world_height)
            (<[0%nat := ((head.1 + v.1) `mod` world_width,
                         (head.2 + v.2) `mod` world_height)]>
               (shift_body (snake st)))) as Hbody.
  { apply Forall_insert; [by apply shift_from_Forall|by apply wrapped_in_grid]. }
  destruct (0 <? spare_parts st); simpl; [|done].
  apply Forall_app. split; [done|]. apply Forall_singleton.
  apply last_Some in Hlast as [l' Hl]. rewrite Hl in Hgrid.
  apply Forall_app in Hgrid as [_ Hgrid]. by inversion Hgrid.
Qed.

(** A pass that leaves [running] set leaves the body inside the grid. *)
Lemma iteration_in_grid (inp : Input) (st st' : GameState) :
  0 < world_width → 0 < world_height →
  Forall (in_grid world_width world_height) (snake st) →
  iteration world_width world_height inp st = Ok st' →
  running st' = true →
  Forall (in_grid world_width world_height) (snake st').
Proof.
  intros Hw Hh Hgrid H Hrun. unfold iteration, update in H. inv_bind H.
  apply handle_events_frame in Ha as (Hs & _ & _). rewrite <- Hs in Hgrid.
  destruct (paused a); [by injection H as <-|].
  inv_bind H. apply spawn_food_inv in Ha as (Hs0 & _). rewrite <- Hs0 in Hgrid.
  destruct (Qlt_bool _ _); [by injection H as <-|].
  inv_bind H. destruct a1 as [st1|st1].
  - apply advance_Alive_in_grid in Ha; [|done..].
    apply eat_inv in H as [-> _]. done.
  - injection H as <-.
    apply advance_Dead_inv in Ha as (? & ? & _ & _ & _ & ->). discriminate.
Qed.

(** No head the food test sees lies in column [world_width] or row
    [world_height], so a pass keeps every food cell that does. *)
Lemma iteration_keeps_border_food (inp : Input) (st st' : GameState) (c : Cell) :
  iteration world_width world_height inp st = Ok st' →
  c ∈ food st →
  c.1 = world_width ∨ c.2 = world_height →
  c ∈ food st'.
Proof.
  intros H Hc Hborder. unfold iteration, update in H. inv_bind H.
  apply handle_events_frame in Ha as (_ & _ & Hf). rewrite <- Hf in Hc.
  destruct (paused a); [by injection H as <-|].
  inv_bind H.
  assert (c ∈ food a0) as Hc0.
  { apply spawn_food_inv in Ha as (_ & _ & _ & _ & [->| [_ ->]]);
      [done|by apply elem_of_union_r]. }
  destruct (Qlt_bool _ _); [by injection H as <-|].
  inv_bind H. pose proof (advance_food _ _ _ _ Ha0) as Hfood.
  destruct a1 as [st1|st1]; simpl in Hfood; [|injection H as <-; by rewrite Hfood].
  apply advance_Alive_head in Ha0 as (head & v & _ & _ & Hw & Hh & Hhead).
  apply eat_inv in H as [_ [[-> _]|(head' & Hhead' & _ & -> & _)]];
    rewrite Hfood; [done|].
  apply elem_of_difference. split; [done|].
  rewrite elem_of_singleton. intros ->.
  pose proof (eq_trans (eq_sym Hhead) Hhead') as Heq.
  injection Heq as <-. simpl in Hborder.
  pose proof (Z.mod_bound_or (head.1 + v.1) world_width Hw).
  pose proof (Z.mod_bound_or (head.2 + v.2) world_height Hh).
  lia.
Qed.

End Invariants.

Lemma game_loop_keeps_border_food (world_width world_height : Z)
    (inputs : list Input) (st st' : GameState) (c : Cell) :
  game_loop world_width world_height inputs st = Ok st' →
  c ∈ food st →
  c.1 = world_width ∨ c.2 = world_height →
  c ∈ food st'.
Proof.
  revert st. induction inputs as [|inp inputs IH]; intros st; simpl.
  - by intros [= <-].
  - destruct (running st); [|by intros [= <-]].
    intros H Hc Hborder. inv_bind H.
    eapply IH; [done| |done]. by eapply iteration_keeps_border_food.
Qed.

Lemma initial_snake_in_grid_positive (world_width world_height : Z) :
  Forall (in_grid world_width world_height) (initial_snake world_width world_height) →
  0 < world_width ∧ 0 < world_height.
Proof.
  unfold initial_snake. simpl. intros H. inversion H as [|? ? Hhead _]; subst.
  simpl in Hhead. lia.
Qed.

(** C9, at the state a game on a 40 x 30 world is in after its first
    second. *)
Lemma spare_parts_nonneg_witness :
  ∃ st, game_loop 40 30 first_second (initial 40 30 0 0) = Ok st ∧
        0 ≤ spare_parts st.
Proof.
  eexists. split; [vm_compute; reflexivity|].
  refine (proj1 (spare_parts_nonneg 40 30 _ _)).
  eapply game_loop_reachable;
    [apply (reach_initial 40 30 0 0) | apply first_second_ok | by vm_compute].
Defined.

(** C10: when the body the game starts with lies inside the grid, then in
    every state at the top of the loop with [running] set all cells of the
    body lie in [0, world_width) x [0, world_height).  A food cell in
    column [world_width] or in row [world_height] is kept in the food set
    by whatever passes of the loop follow. *)
Theorem body_in_grid_and_border_food_kept (world_width world_height : Z)
    (st : GameState) :
  Forall (in_grid world_width world_height) (initial_snake world_width world_height) →
  reachable world_width world_height st →
  (running st = true → Forall (in_grid world_width world_height) (snake st)) ∧
  (∀ inputs st' c,
     game_loop world_width world_height inputs st = Ok st' →
     c ∈ food st →
     c.1 = world_width ∨ c.2 = world_height →
     c ∈ food st').
Proof.
  intros Hinit Hreach. split.
  - destruct (initial_snake_in_grid_positive _ _ Hinit) as [Hw Hh].
    induction Hreach as [t_food t_frame|st st' inp _ IH Hrun _ Hit]; [done|].
    intros Hrun'. eapply iteration_in_grid; eauto.
  - intros inputs st' c. apply game_loop_keeps_border_food.
Qed.

(** C10, run on a 40 x 30 world: the first pass draws food on (40, 4), a
    cell of column 40.  After that pass the body is inside the grid, and
    the cell is still in the food set after a further second of play. *)
Lemma body_in_grid_and_border_food_witness :
  ∃ st st',
    iteration 40 30 border_draw (initial 40 30 0 0) = Ok st ∧
    game_loop 40 30 first_second st = Ok st' ∧
    Forall (in_grid 40 30) (snake st) ∧
    ((40, 4) ∈ food st) ∧ ((40, 4) ∈ food st').
Proof.
  eexists _, _. split_and!.
  1: { vm_compute. reflexivity. }
  1: { vm_compute. reflexivity. }
  - refine (proj1 (body_in_grid_and_border_food_kept 40 30 _ _ _) _).
    + repeat constructor; by vm_compute.
    + eapply (reach_iteration 40 30 (initial 40 30 0 0) _ border_draw);
        [apply reach_initial | reflexivity | repeat split; by vm_compute
        | by vm_compute].
    + reflexivity.
  - by vm_compute.
  - refine (proj2 (body_in_grid_and_border_food_kept 40 30 _ _ _)
              first_second _ (40, 4) _ _ _).
    + repeat constructor; by vm_compute.
    + eapply (reach_iteration 40 30 (initial 40 30 0 0) _ border_draw);
        [apply reach_initial | reflexivity | repeat split; by vm_compute
        | by vm_compute].
    + by vm_compute.
    + by vm_compute.
    + by left.
Defined.

(** * Further properties of the code *)

(** ** Geometry *)

(** X1: [Direction.vector] returns [None] exactly for integers that are
    not members of the enumeration; on the members it is one-to-one, and
    its values are exactly the four unit vectors along the axes. *)
Theorem vector_members_and_unit_vectors :
  (∀ n, Direction.vector n = None ↔ ¬ (1 ≤ n ≤ 4)) ∧
  (∀ d1 d2,
     Direction.vector (Direction.value d1) = Direction.vector (Direction.value d2) →
     d1 = d2) ∧
  (∀ v : Z * Z,
     (∃ d, Direction.vector (Direction.value d) = Some v) ↔ Z.abs v.1 + Z.abs v.2 = 1).
Proof.
  split_and!.
  - intros n. unfold Direction.vector, Direction.value.
    destruct (n =? 1) eqn:H1; [apply Z.eqb_eq in H1; split; [discriminate|lia]|].
    destruct (n =? 2) eqn:H2; [apply Z.eqb_eq in H2; split; [discriminate|lia]|].
    destruct (n =? 3) eqn:H3; [apply Z.eqb_eq in H3; split; [discriminate|lia]|].
    destruct (n =? 4) eqn:H4; [apply Z.eqb_eq in H4; split; [discriminate|lia]|].
    apply Z.eqb_neq in H1, H2, H3, H4. split; [lia|done].
  - intros d1 d2. rewrite !vector_value. by destruct d1, d2.
  - intros [x y]. simpl. split.
    + intros [d Hd]. rewrite vector_value in Hd. by destruct d; injection Hd as <- <-.
    + intros Hunit.
      assert ((x = 0 ∧ y = -1) ∨ (x = 1 ∧ y = 0) ∨ (x = 0 ∧ y = 1) ∨ (x = -1 ∧ y = 0))
        as [[-> ->]|[[-> ->]|[[-> ->]|[-> ->]]]] by lia.
      * by exists UP.
      * by exists RIGHT.
      * by exists DOWN.
      * by exists LEFT.
Qed.

(** X2: two directions are [reversed] exactly when their vectors cancel
    under [add_vectors]. *)
Theorem reversed_iff_vectors_cancel (d1 d2 : Direction) :
  Direction.reversed (Direction.value d1) (Direction.value d2) = true ↔
  ∃ v1 v2,
    Direction.vector (Direction.value d1) = Some v1 ∧
    Direction.vector (Direction.value d2) = Some v2 ∧
    add_vectors v1 v2 = (0, 0).
Proof.
  rewrite !vector_value. split.
  - intros H. eexists _, _. split_and!; [done..|].
    by destruct d1, d2.
  - intros (v1 & v2 & [= <-] & [= <-] & H). by destruct d1, d2.
Qed.

(** ** The snake update in closed form *)

Lemma count_pos (x : Cell) (l : list Cell) : (0 < count x l)%nat ↔ x ∈ l.
Proof.
  unfold count. split.
  - intros H. destruct (filter (λ c, c = x) l) as [|c l'] eqn:Hf; [simpl in H; lia|].
    assert (c ∈ filter (λ c, c = x) l) as Hc by (rewrite Hf; apply list_elem_of_here).
    by apply list_elem_of_filter in Hc as [-> ?].
  - intros H.
    assert (x ∈ filter (λ c, c = x) l) as Hx by (by apply list_elem_of_filter).
    destruct (filter (λ c, c = x) l); [by apply elem_of_nil in Hx|simpl; lia].
Qed.

Lemma count_head (x : Cell) (l : list Cell) : count x (x :: l) = S (count x l).
Proof. unfold count. by rewrite filter_cons_True. Qed.

Lemma removelast_snoc_last (l : list Cell) (x : Cell) :
  last l = Some x → removelast l ++ [x] = l.
Proof. intros [l' ->]%last_Some. by rewrite removelast_last. Qed.

Section Closed.

Variables world_width world_height : Z.

(** Lines 168-187 for a body [h :: t]: the shift loop and the two writes to
    index 0 amount to putting the new head in front of the old body without
    its last cell; the append gives that cell back. *)
Lemma advance_cons (st : GameState) (h : Cell) (t : list Cell) (v : Z * Z) :
  snake st = h :: t →
  Direction.vector (Direction.value (current_direction st)) = Some v →
  advance world_width world_height st =
  if decide (add_vectors h v ∈ removelast (h :: t)) then
    Ok (Dead (set_running false
                (set_snake (add_vectors h v :: removelast (h :: t)) st)))
  else
    wrapped ← wrap world_width world_height (add_vectors h v);
    Ok (Alive
          (if 0 <? spare_parts st then
             set_spare_parts (spare_parts st - 1)
               (set_snake (wrapped :: h :: t) st)
           else set_snake (wrapped :: removelast (h :: t)) st)).
Proof.
  intros Hsnake Hv. unfold advance. rewrite Hv, Hsnake, shift_body_cons.
  destruct (last (h :: t)) as [last_body|] eqn:Hlast;
    [|by apply last_None in Hlast].
  cbn [lookup list_lookup insert list_insert]. cbv zeta.
  rewrite count_head.
  pose proof (count_pos (add_vectors h v) (removelast (h :: t))) as Hcount.
  destruct (count (add_vectors h v) (removelast (h :: t))) as [|c].
  - rewrite decide_False by (intros Hin; apply Hcount in Hin; lia).
    cbn [Nat.ltb Nat.leb].
    destruct (wrap world_width world_height (add_vectors h v)) as [wrapped|e]; [|done].
    cbn [mbind result_bind spare_parts snake set_snake].
    destruct (0 <? spare_parts st); [|done].
    by rewrite <- app_comm_cons, removelast_snoc_last.
  - rewrite decide_True by (apply Hcount; lia).
    by cbn [Nat.ltb Nat.leb].
Qed.

End Closed.

(** X4: the index loop of lines 171-172 copies every cell one place
    towards the tail: the head cell is doubled and the last cell is lost.
    It keeps the length, and on an empty list it does nothing. *)
Theorem shift_loop_closed_form (l : list Cell) :
  shift_body l = match l with
                 | [] => []
                 | h :: t => h :: removelast (h :: t)
                 end ∧
  length (shift_body l) = length l.
Proof.
  split; [|apply shift_body_length].
  destruct l as [|h t]; [done|apply shift_body_cons].
Qed.

(** X5: a surviving update puts the wrapped new head in front of the old
    body; the old last cell is dropped, unless a spare part is pending, in
    which case the whole old body is kept behind the new head. *)
Theorem advance_Alive_body (world_width world_height : Z) (st st' : GameState) :
  advance world_width world_height st = Ok (Alive st') →
  ∃ h t v,
    snake st = h :: t ∧
    Direction.vector (Direction.value (current_direction st)) = Some v ∧
    snake st' =
      ((h.1 + v.1) `mod` world_width, (h.2 + v.2) `mod` world_height)
        :: (if 0 <? spare_parts st then h :: t else removelast (h :: t)).
Proof.
  intros H.
  destruct (advance_Alive_inv _ _ _ _ H) as (_ & h & v & _ & Hh & Hv & _).
  destruct (snake st) as [|h' t] eqn:Hsnake; [done|]. injection Hh as ->.
  exists h, t, v. split_and!; [done..|].
  rewrite (advance_cons _ _ _ _ _ _ Hsnake Hv) in H.
  destruct (decide _); [discriminate|]. inv_bind H.
  apply wrap_Ok_inv in Ha as (_ & _ & ->). injection H as <-.
  by destruct (0 <? spare_parts st).
Qed.

(** X5, run on the sample body with two parts pending: the new head (5, 4)
    is put in front of the three old cells. *)
Lemma advance_Alive_body_witness :
  ∃ h t v,
    snake growing = h :: t ∧
    Direction.vector (Direction.value (current_direction growing)) = Some v ∧
    snake (set_spare_parts 1 (set_snake [(5, 4); (5, 5); (5, 6); (5, 7)] growing)) =
      ((h.1 + v.1) `mod` 10, (h.2 + v.2) `mod` 10)
        :: (if 0 <? spare_parts growing then h :: t else removelast (h :: t)).
Proof. apply (advance_Alive_body 10 10 growing). reflexivity. Defined.

(** X6: the update ends in the collision branch exactly when the cell in
    front of the head, before wrapping, is a cell of the old body other
    than its last one. *)
Theorem advance_Dead_iff (world_width world_height : Z) (st : GameState)
    (h : Cell) (t : list Cell) (v : Z * Z) :
  snake st = h :: t →
  Direction.vector (Direction.value (current_direction st)) = Some v →
  (∃ st', advance world_width world_height st = Ok (Dead st')) ↔
  add_vectors h v ∈ removelast (h :: t).
Proof.
  intros Hsnake Hv. rewrite (advance_cons _ _ _ _ _ _ Hsnake Hv).
  destruct (decide _) as [Hin|Hout].
  - split; [done|eauto].
  - split; [|done]. intros [st' H]. inv_bind H. discriminate.
Qed.

(** X6, at the sample body with Down held: the cell below the head is
    (5, 6), the second cell of the body. *)
Lemma advance_Dead_iff_witness :
  (∃ st', advance 10 10 turning_back = Ok (Dead st')) ↔
  add_vectors (5, 5) (0, 1) ∈ removelast [(5, 5); (5, 6); (5, 7)].
Proof. apply (advance_Dead_iff 10 10 turning_back); reflexivity. Defined.



(** X8: in a world of positive width and height, wrapping puts any cell
    into the grid, leaves a cell of the grid where it is, and wrapping
    twice is wrapping once. *)
Theorem wrap_into_grid (world_width world_height : Z) (c : Cell) :
  0 < world_width → 0 < world_height →
  ∃ c', wrap world_width world_height c = Ok c' ∧
        in_grid world_width world_height c' ∧
        (in_grid world_width world_height c → c' = c) ∧
        wrap world_width world_height c' = Ok c'.
Proof.
  intros Hw Hh. unfold wrap.
  replace (world_width =? 0) with false by (symmetry; apply Z.eqb_neq; lia).
  replace (world_height =? 0) with false by (symmetry; apply Z.eqb_neq; lia).
  cbn [orb]. eexists. split; [done|]. split; [|split].
  - by apply wrapped_in_grid.
  - destruct c as [x y]. cbn [fst snd in_grid]. intros [Hx Hy].
    by rewrite !Z.mod_small.
  - cbn [fst snd]. by rewrite !Z.mod_mod by lia.
Qed.

(** X8, for the cell (-1, 30) on a 40 x 30 world: it is wrapped to
    (39, 0). *)
Lemma wrap_into_grid_witness :
  ∃ c', wrap 40 30 (-1, 30) = Ok c' ∧
        in_grid 40 30 c' ∧
        (in_grid 40 30 (-1, 30) → c' = (-1, 30)) ∧
        wrap 40 30 c' = Ok c'.
Proof. apply (wrap_into_grid 40 30 (-1, 30)); lia. Defined.

Lemma wrap_in_grid_id (world_width world_height : Z) (c : Cell) :
  in_grid world_width world_height c → wrap world_width world_height c = Ok c.
Proof.
  destruct c as [x y]. cbn [in_grid fst snd]. intros [Hx Hy]. unfold wrap.
  replace (world_width =? 0) with false by (symmetry; apply Z.eqb_neq; lia).
  replace (world_height =? 0) with false by (symmetry; apply Z.eqb_neq; lia).
  cbn [orb fst snd]. by rewrite !Z.mod_small.
Qed.

(** X9: stepping onto the cell of the last segment is not a collision.
    When that cell is in the grid the snake survives; the last segment
    leaves the cell in the same update, unless a spare part is pending: then
    the whole old body is kept, and the new head and the last segment share
    the cell. *)
Theorem head_onto_last_cell (world_width world_height : Z) (st : GameState)
    (h tl : Cell) (t : list Cell) (v : Z * Z) :
  snake st = h :: t →
  last t = Some tl →
  Direction.vector (Direction.value (current_direction st)) = Some v →
  add_vectors h v = tl →
  tl ∉ removelast (h :: t) →
  in_grid world_width world_height tl →
  ∃ st', advance world_width world_height st = Ok (Alive st') ∧
         running st' = running st ∧
         snake st' = tl :: (if 0 <? spare_parts st then h :: t
                            else removelast (h :: t)) ∧
         (0 < spare_parts st → snake st' !! 0%nat = last (snake st')).
Proof.
  intros Hsnake Hlast Hv Hstep Hout Hgrid.
  rewrite (advance_cons _ _ _ _ _ _ Hsnake Hv), Hstep.
  rewrite decide_False by done.
  rewrite (wrap_in_grid_id _ _ _ Hgrid). cbn [mbind result_bind].
  eexists. split; [done|].
  destruct (0 <? spare_parts st) eqn:Hspare;
    cbn [running snake set_snake set_spare_parts]; (split; [done|]); (split; [done|]).
  - intros _. destruct t as [|c t]; [done|].
    by rewrite !last_cons_cons, Hlast.
  - intros Hpos. apply Z.ltb_ge in Hspare. lia.
Qed.

(** X9, run on a 10 x 10 world with the body coiled in a square and one
    part pending: the head steps down onto (0, 1), the cell of the last
    segment, and shares it with that segment afterwards. *)
Lemma head_onto_last_cell_witness :
  ∃ st', advance 10 10 chasing_tail = Ok (Alive st') ∧
         running st' = running chasing_tail ∧
         snake st' = (0, 1) :: (if 0 <? spare_parts chasing_tail
                                then [(0, 0); (1, 0); (1, 1); (0, 1)]
                                else removelast [(0, 0); (1, 0); (1, 1); (0, 1)]) ∧
         (0 < spare_parts chasing_tail → snake st' !! 0%nat = last (snake st')).
Proof.
  apply (head_onto_last_cell 10 10 chasing_tail (0, 0) (0, 1)
           [(1, 0); (1, 1); (0, 1)] (0, 1));
    [reflexivity | reflexivity | reflexivity | reflexivity | | by vm_compute].
  simpl. rewrite !not_elem_of_cons. split_and!; try discriminate.
  apply not_elem_of_nil.
Defined.

(** ** Score accounting *)

Section Account.

Variables world_width world_height : Z.

Lemma advance_account (st : GameState) (o : Outcome) :
  advance world_width world_height st = Ok o →
  match o with
  | Alive st' | Dead st' =>
      (length (snake st) ≤ length (snake st'))%nat ∧
      Z.of_nat (length (snake st')) + spare_parts st' =
      Z.of_nat (length (snake st)) + spare_parts st
  end.
Proof.
  destruct o as [st'|st']; intros H.
  - apply advance_Alive_inv in H as (? & ? & ? & _ & _ & _ & _ & _ & _ & ->).
    destruct (0 <? spare_parts st); simpl;
      rewrite ?length_app, length_insert, shift_body_length; simpl; lia.
  - apply advance_Dead_inv in H as (? & ? & _ & _ & _ & ->). simpl.
    rewrite length_insert, shift_body_length. lia.
Qed.

Lemma iteration_account (inp : Input) (st st' : GameState) :
  iteration world_width world_height inp st = Ok st' →
  (length (snake st) ≤ length (snake st'))%nat ∧
  (Z.of_nat (length (snake st')) + spare_parts st' =
   Z.of_nat (length (snake st)) + spare_parts st ∨
   Z.of_nat (length (snake st')) + spare_parts st' =
   Z.of_nat (length (snake st)) + spare_parts st + 3).
Proof.
  unfold iteration, update. intros H. inv_bind H.
  apply handle_events_frame in Ha as (<- & <- & _).
  destruct (paused a); [injection H as <-; lia|].
  inv_bind H. apply spawn_food_inv in Ha as (<- & <- & _).
  destruct (Qlt_bool _ _); [injection H as <-; lia|].
  inv_bind H. apply advance_account in Ha. simpl in Ha.
  destruct a1 as [st1|st1].
  - apply eat_inv in H as [-> [[_ ->]|(_ & _ & _ & _ & ->)]]; lia.
  - injection H as <-. lia.
Qed.

(** X10: the body never gets shorter and never has fewer than the four
    cells it starts with.  The length of the body plus the parts still
    pending stays the same from pass to pass or goes up by 3, so it is
    always 4 plus a multiple of 3. *)
Theorem length_and_spare_parts_account (st : GameState) :
  reachable world_width world_height st →
  (4 ≤ length (snake st))%nat ∧
  (Z.of_nat (length (snake st)) + spare_parts st) `mod` 3 = 1 ∧
  (∀ inp st',
     iteration world_width world_height inp st = Ok st' →
     (length (snake st) ≤ length (snake st'))%nat ∧
     (Z.of_nat (length (snake st')) + spare_parts st' =
      Z.of_nat (length (snake st)) + spare_parts st ∨
      Z.of_nat (length (snake st')) + spare_parts st' =
      Z.of_nat (length (snake st)) + spare_parts st + 3)).
Proof.
  intros Hreach. split_and!; [| |intros inp st'; apply iteration_account].
  - induction Hreach as [t_food t_frame|st st' inp _ IH _ _ Hit]; [simpl; lia|].
    apply iteration_account in Hit. lia.
  - induction Hreach as [t_food t_frame|st st' inp _ IH _ _ Hit]; [done|].
    apply iteration_account in Hit as [_ [->| ->]]; [done|].
    by rewrite <- Zplus_mod_idemp_r, Z.add_0_r.
Qed.

End Account.

(** X10, at the state of the sample game after its first second. *)
Lemma length_and_spare_parts_account_witness :
  ∃ st, game_loop 40 30 first_second (initial 40 30 0 0) = Ok st ∧
        (4 ≤ length (snake st))%nat ∧
        (Z.of_nat (length (snake st)) + spare_parts st) `mod` 3 = 1.
Proof.
  eexists. split; [vm_compute; reflexivity|].
  refine (let H := length_and_spare_parts_account 40 30 _ _ in
          conj (proj1 H) (proj1 (proj2 H))).
  eapply game_loop_reachable;
    [apply (reach_initial 40 30 0 0) | apply first_second_ok | by vm_compute].
Defined.

Lemma wrap_into_grid_Ok (world_width world_height : Z) (c : Cell) :
  0 < world_width → 0 < world_height →
  ∃ c', wrap world_width world_height c = Ok c'.
Proof.
  intros Hw Hh. unfold wrap.
  replace (world_width =? 0) with false by (symmetry; apply Z.eqb_neq; lia).
  replace (world_height =? 0) with false by (symmetry; apply Z.eqb_neq; lia).
  simpl. eauto.
Qed.

(** ** What can go wrong in a pass *)

Section Raise.

Variables world_width world_height : Z.

(** With a body that is not empty and a world of positive size, the part
    of the pass after the event loop always completes. *)
Lemma update_Ok (inp : Input) (st : GameState) :
  0 < world_width → 0 < world_height → snake st ≠ [] →
  ∃ st', update world_width world_height inp st = Ok st'.
Proof.
  intros Hw Hh Hbody. unfold update.
  destruct (paused st); [eauto|].
  assert (∃ st0, spawn_food world_width world_height inp st = Ok st0 ∧
                 snake st0 = snake st) as (st0 & -> & Hs0).
  { unfold spawn_food. destruct (Qle_bool _ _); [|eauto].
    replace (world_width <? 0) with false by (symmetry; apply Z.ltb_ge; lia).
    replace (world_height <? 0) with false by (symmetry; apply Z.ltb_ge; lia).
    simpl. eauto. }
  cbn [mbind result_bind]. destruct (Qlt_bool _ _); [eauto|].
  destruct (snake st0) as [|h t] eqn:Hsnake; [congruence|].
  destruct (Direction.vector (Direction.value
              (current_direction (set_next_frame (next_frame st0 + interval)%Q st0))))
    as [v|] eqn:Hv; [|by rewrite vector_value in Hv].
  rewrite (advance_cons _ _ _ h t v) by done.
  destruct (decide _); [cbn [mbind result_bind]; eauto|].
  destruct (wrap_into_grid_Ok world_width world_height (add_vectors h v) Hw Hh)
    as [c' ->].
  cbn [mbind result_bind]. unfold eat.
  destruct (0 <? spare_parts _); simpl; eauto.
Qed.

End Raise.

Lemma iteration_nonempty (world_width world_height : Z) (st : GameState) :
  reachable world_width world_height st → (4 ≤ length (snake st))%nat.
Proof.
  induction 1 as [t_food t_frame|st st' inp _ IH _ _ Hit]; [simpl; lia|].
  apply iteration_account in Hit. lia.
Qed.

Lemma handle_events_Raise (events : list (Reading * Event)) (st : GameState) (e : exn) :
  handle_events events st = Raise e → e = ValueError ∧ events ≠ [].
Proof.
  revert st. induction events as [|[rd event] events IH]; intros st; [done|].
  cbn [handle_events].
  destruct (handle_event rd event st) as [[[] st']|e'] eqn:Hev; simpl.
  - intros H. by destruct (IH _ H) as [-> _].
  - discriminate.
  - intros [= <-]. by apply handle_event_Raise in Hev as [-> _].
Qed.

(** X11: in a world of positive width and height, a pass started from a
    state the loop can be in fails only in its event loop, and only with
    the [ValueError] of a release that finds its direction not held; the
    food spawn, the snake update and the food test never raise. *)
Theorem pass_raises_only_in_event_loop (world_width world_height : Z)
    (inp : Input) (st : GameState) (e : exn) :
  0 < world_width → 0 < world_height →
  reachable world_width world_height st →
  iteration world_width world_height inp st = Raise e →
  e = ValueError ∧ handle_events (events inp) st = Raise ValueError.
Proof.
  intros Hw Hh Hreach. unfold iteration.
  destruct (handle_events (events inp) st) as [st1|e1] eqn:Hev.
  - cbn [mbind result_bind].
    destruct (update_Ok world_width world_height inp st1 Hw Hh) as [st' ->];
      [|discriminate].
    apply handle_events_frame in Hev as (-> & _ & _).
    apply (iteration_nonempty world_width world_height) in Hreach.
    intros Hnil. rewrite Hnil in Hreach. simpl in Hreach. lia.
  - cbn [mbind result_bind]. intros [= <-].
    destruct (handle_events_Raise _ _ _ Hev) as [-> _]. done.
Qed.

(** X11, for a new game on a 40 x 30 world whose first event is the
    release of W. *)
Lemma pass_raises_only_in_event_loop_witness :
  ValueError = ValueError ∧
  handle_events
    (events {| events := [({| time_food := 0; choice := 1; jitter := 0;
                              time_frame := 0 |}, KEYUP K_w)];
               current := 0; food_x := 3; food_y := 4;
               food_choice := 1; food_jitter := 0 |})
    (initial 40 30 0 0) = Raise ValueError.
Proof.
  apply (pass_raises_only_in_event_loop 40 30 _ (initial 40 30 0 0));
    [lia | lia | apply reach_initial | reflexivity].
Defined.

(** ** Quitting and pausing *)

Lemma handle_event_running (rd : Reading) (event : Event) (st st' : GameState) (f : Flow) :
  handle_event rd event st = Ok (f, st') →
  match f with
  | Break => running st' = false
  | Next => running st' = running st
  end.
Proof.
  destruct event as [|[]|[]|]; simpl; intros H;
    try (by injection H as <- <-);
    inv_bind H; injection H as <- <-;
    unfold release in Ha; inv_bind Ha; injection Ha as <-;
    by destruct (length _ =? 0)%nat.
Qed.

(** Events handled without leaving the event loop are a prefix that can be
    split off. *)
Lemma handle_events_app (before rest : list (Reading * Event)) (st st1 : GameState) :
  handle_events before st = Ok st1 →
  running st1 = true →
  handle_events (before ++ rest) st = handle_events rest st1.
Proof.
  revert st. induction before as [|[rd event] before IH]; intros st.
  - by intros [= <-].
  - cbn [handle_events app]. intros H Hrun. inv_bind H. rewrite Ha.
    cbn [mbind result_bind]. destruct a as [[] st2].
    + by apply IH.
    + injection H as <-. apply handle_event_running in Ha. congruence.
Qed.

(** X12: a [QUIT] event or the Escape key ends the game in the pass that
    receives it.  The events queued behind it are dropped unhandled, the
    pass spawns no food and does not move the snake, [running] is cleared,
    and the loop makes no further pass. *)
Theorem quit_ends_the_game (world_width world_height : Z) (inp : Input)
    (st st1 : GameState) (before rest : list (Reading * Event))
    (rd : Reading) (event : Event) :
  events inp = before ++ (rd, event) :: rest →
  event = QUIT ∨ event = KEYDOWN K_ESCAPE →
  handle_events before st = Ok st1 →
  running st1 = true →
  ∃ st',
    iteration world_width world_height inp st = Ok st' ∧
    running st' = false ∧
    snake st' = snake st ∧ food st' = food st ∧
    spare_parts st' = spare_parts st ∧
    direction st' = direction st1 ∧
    (∀ more, game_loop world_width world_height more st' = Ok st').
Proof.
  intros Hev Hquit Hbefore Hrun.
  exists (set_paused true (set_running false st1)).
  destruct (handle_events_frame _ _ _ Hbefore) as (Hs & Hp & Hf).
  split_and!; try done.
  - unfold iteration. rewrite Hev, (handle_events_app _ _ _ _ Hbefore Hrun).
    by destruct Hquit as [-> | ->].
  - by intros [|inp' more].
Qed.

(** X12, for a new game on a 40 x 30 world: W is pressed, then the window
    is closed, and the release of A queued behind it, which would raise, is
    never handled. *)
Lemma quit_ends_the_game_witness :
  ∃ st',
    iteration 40 30 quitting_pass (initial 40 30 0 0) = Ok st' ∧
    running st' = false ∧
    snake st' = snake (initial 40 30 0 0) ∧ food st' = food (initial 40 30 0 0) ∧
    spare_parts st' = spare_parts (initial 40 30 0 0) ∧
    direction st' = direction (press UP (initial 40 30 0 0)) ∧
    (∀ more, game_loop 40 30 more st' = Ok st').
Proof.
  apply (quit_ends_the_game 40 30 quitting_pass (initial 40 30 0 0)
           (press UP (initial 40 30 0 0))
           [(no_reading, KEYDOWN K_w)] [(no_reading, KEYUP K_a)] no_reading QUIT);
    [reflexivity | by left | reflexivity | reflexivity].
Defined.

Lemma handle_event_no_pause (rd : Reading) (event : Event) (st st' : GameState) (f : Flow) :
  event ≠ KEYDOWN K_SPACE →
  handle_event rd event st = Ok (f, st') →
  next_food st' = next_food st ∧ next_frame st' = next_frame st ∧
  (paused st = true → paused st' = true).
Proof.
  intros Hne.
  destruct event as [|[]|[]|]; simpl; intros H; try done;
    try (by injection H as <- <-);
    inv_bind H; injection H as <- <-;
    unfold release in Ha; inv_bind Ha; injection Ha as <-;
    by destruct (length _ =? 0)%nat.
Qed.

Lemma handle_events_no_pause (events : list (Reading * Event)) (st st' : GameState) :
  Forall (λ re, re.2 ≠ KEYDOWN K_SPACE) events →
  handle_events events st = Ok st' →
  next_food st' = next_food st ∧ next_frame st' = next_frame st ∧
  (paused st = true → paused st' = true).
Proof.
  revert st. induction events as [|[rd event] events IH]; intros st Hev.
  - by intros [= <-].
  - apply Forall_cons in Hev as [Hne Hev]. cbn [handle_events].
    intros H. inv_bind H. destruct a as [f st1].
    apply (handle_event_no_pause _ _ _ _ _ Hne) in Ha as (Hf & Hn & Hp).
    destruct f; [apply (IH _ Hev) in H as (-> & -> & Hp')|injection H as <-];
      split_and!; auto.
Qed.

(** X13: while the game is paused nothing but the event loop runs.  Over
    any number of passes that receive no press of the space bar, the body,
    the food set, the pending parts and both deadlines stay as they are,
    whatever the clock reads, and the game stays paused. *)
Theorem paused_game_is_frozen (world_width world_height : Z)
    (inputs : list Input) (st st' : GameState) :
  paused st = true →
  Forall (λ inp, Forall (λ re, re.2 ≠ KEYDOWN K_SPACE) (events inp)) inputs →
  game_loop world_width world_height inputs st = Ok st' →
  paused st' = true ∧
  snake st' = snake st ∧ food st' = food st ∧
  spare_parts st' = spare_parts st ∧
  next_food st' = next_food st ∧ next_frame st' = next_frame st.
Proof.
  revert st. induction inputs as [|inp inputs IH]; intros st Hpaused Hin.
  - by intros [= <-].
  - apply Forall_cons in Hin as [Hinp Hin]. cbn [game_loop].
    destruct (running st); [|by intros [= <-]].
    intros H. inv_bind H. unfold iteration in Ha. inv_bind Ha.
    destruct (handle_events_frame _ _ _ Ha0) as (Hs & Hp & Hf).
    destruct (handle_events_no_pause _ _ _ Hinp Ha0) as (Hnf & Hnr & Hpa).
    unfold update in Ha. rewrite (Hpa Hpaused) in Ha. injection Ha as <-.
    destruct (IH a0 (Hpa Hpaused) Hin H) as (? & ? & ? & ? & ? & ?).
    split_and!; congruence.
Qed.

(** X13, for a paused game on a 40 x 30 world over the seventeen passes of
    the sample second. *)
Lemma paused_game_is_frozen_witness :
  ∃ st',
    game_loop 40 30 first_second paused_game = Ok st' ∧
    paused st' = true ∧
    snake st' = snake paused_game ∧ food st' = food paused_game ∧
    spare_parts st' = spare_parts paused_game ∧
    next_food st' = next_food paused_game ∧
    next_frame st' = next_frame paused_game.
Proof.
  eexists. split; [vm_compute; reflexivity|].
  apply (paused_game_is_frozen 40 30 first_second paused_game);
    [reflexivity | repeat constructor | vm_compute; reflexivity].
Defined.

(** ** More on the input buffer *)

Lemma list_remove_length (x : Direction) (l l' : list Direction) :
  list_remove x l = Ok l' → length l = S (length l').
Proof.
  revert l'. induction l as [|y l IH]; intros l'; [discriminate|]. simpl.
  destruct (decide (y = x)); [by intros [= <-]|].
  intros H. inv_bind H. injection H as <-. simpl. by rewrite (IH a).
Qed.

Lemma list_remove_last (x : Direction) (l l' : list Direction) (y : Direction) :
  list_remove x (l ++ [y]) = Ok l' →
  x ∈ l → ∃ l'', l' = l'' ++ [y].
Proof.
  revert l'. induction l as [|z l IH]; intros l' H Hx; [by apply elem_of_nil in Hx|].
  simpl in H. destruct (decide (z = x)) as [->|Hzx].
  - injection H as <-. by exists l.
  - inv_bind H. injection H as <-.
    apply elem_of_cons in Hx as [->|Hx]; [done|].
    destruct (IH a Ha Hx) as [l'' ->]. by exists (z :: l'').
Qed.

Lemma handle_event_KEYDOWN (rd : Reading) (key : Key) (d : Direction) (st : GameState) :
  (key, d) ∈ movement →
  handle_event rd (KEYDOWN key) st = Ok (Next, press d st).
Proof.
  intros H. by destruct (movement_cases _ _ H) as [[-> ->]|[[-> ->]|[[-> ->]|[-> ->]]]].
Qed.

Lemma release_press (d : Direction) (st : GameState) :
  ∃ st',
    release d (press d st) = Ok st' ∧
    length (direction st') = length (direction st) ∧
    (d ∉ direction st →
       direction st' = direction st ∧
       last_direction st' = match direction st with
                            | [] => d
                            | _ :: _ => last_direction st
                            end) ∧
    (d ∈ direction st → current_direction st' = d).
Proof.
  unfold release, press. cbn [direction set_direction].
  destruct (list_remove d (direction st ++ [d])) as [held|e] eqn:Hrem.
  - cbn [mbind result_bind]. eexists. split; [done|].
    pose proof (list_remove_length _ _ _ Hrem) as Hlen.
    rewrite length_app in Hlen. simpl in Hlen.
    split; [destruct (length held =? 0)%nat; simpl; lia|]. split.
    + intros Hout. rewrite (list_remove_middle _ _ [] Hout), app_nil_r in Hrem.
      injection Hrem as <-. by destruct (direction st).
    + intros Hin. destruct (list_remove_last _ _ _ _ Hrem Hin) as [l'' ->].
      apply current_direction_held with (held := l'').
      rewrite length_app. simpl.
      by replace (length l'' + 1 =? 0)%nat with false
        by (symmetry; apply Nat.eqb_neq; lia).
  - apply list_remove_Raise in Hrem as [_ Hrem].
    exfalso. apply Hrem, elem_of_app. right. by apply list_elem_of_singleton.
Qed.

(** X14: a press followed by the release of the same movement key never
    raises.  When the direction was not held before, the held list is as
    it was, and the released direction becomes [last_direction] only if no
    other key is held.  When the direction was already held (a press
    without a release in between), the earlier entry is the one removed:
    the direction stays held and in effect. *)
Theorem press_then_release (rd1 rd2 : Reading) (key : Key) (d : Direction)
    (st : GameState) :
  (key, d) ∈ movement →
  ∃ st',
    handle_events [(rd1, KEYDOWN key); (rd2, KEYUP key)] st = Ok st' ∧
    length (direction st') = length (direction st) ∧
    (d ∉ direction st →
       direction st' = direction st ∧
       last_direction st' = match direction st with
                            | [] => d
                            | _ :: _ => last_direction st
                            end) ∧
    (d ∈ direction st → current_direction st' = d).
Proof.
  intros Hkey. destruct (release_press d st) as (st' & Hrel & H).
  exists st'. split; [|done]. cbn [handle_events].
  rewrite (handle_event_KEYDOWN _ _ _ _ Hkey). cbn [mbind result_bind].
  rewrite (handle_event_KEYUP _ _ _ _ Hkey), Hrel. done.
Qed.

(** X14, for the key D pressed and released in a new game: the held list
    is empty again and Right is the direction in effect. *)
Lemma press_then_release_witness :
  ∃ st',
    handle_events [(no_reading, KEYDOWN K_d); (no_reading, KEYUP K_d)]
      (initial 40 30 0 0) = Ok st' ∧
    direction st' = [] ∧ last_direction st' = RIGHT.
Proof.
  destruct (press_then_release no_reading no_reading K_d RIGHT (initial 40 30 0 0))
    as (st' & Hev & _ & Hout & _).
  - unfold movement. rewrite !elem_of_cons. tauto.
  - exists st'. split; [done|]. apply Hout. apply not_elem_of_nil.
Defined.

(** X15: releasing a key that is held but is not the one pressed last
    takes it out of the held list and changes neither the direction in
    effect nor [last_direction]. *)
Theorem release_older_key (rd : Reading) (key : Key) (d : Direction)
    (st : GameState) (l1 l2 : list Direction) :
  (key, d) ∈ movement →
  direction st = l1 ++ d :: l2 →
  d ∉ l1 →
  l2 ≠ [] →
  ∃ st',
    handle_event rd (KEYUP key) st = Ok (Next, st') ∧
    direction st' = l1 ++ l2 ∧
    last_direction st' = last_direction st ∧
    current_direction st' = current_direction st.
Proof.
  intros Hkey Hheld Hout Hl2.
  rewrite (handle_event_KEYUP _ _ _ _ Hkey). unfold release.
  rewrite Hheld, (list_remove_middle _ _ _ Hout). cbn [mbind result_bind].
  destruct (exists_last Hl2) as (l & y & ->).
  replace (length (l1 ++ l ++ [y]) =? 0)%nat with false
    by (symmetry; apply Nat.eqb_neq; rewrite !length_app; simpl; lia).
  eexists. split_and!; [done..|].
  rewrite (current_direction_held _ (l1 ++ l) y) by (simpl; by rewrite <- app_assoc).
  symmetry. apply (current_direction_held _ (l1 ++ d :: l) y).
  rewrite Hheld. by rewrite <- app_assoc.
Qed.

(** X15, with W and then D held in a new game: releasing W leaves Right in
    effect. *)
Lemma release_older_key_witness :
  ∃ st',
    handle_event no_reading (KEYUP K_w) two_keys_held = Ok (Next, st') ∧
    direction st' = [] ++ [RIGHT] ∧
    last_direction st' = last_direction two_keys_held ∧
    current_direction st' = current_direction two_keys_held.
Proof.
  apply (release_older_key no_reading K_w UP two_keys_held [] [RIGHT]);
    [unfold movement; rewrite !elem_of_cons; tauto | reflexivity
    | apply not_elem_of_nil | done].
Defined.

(** ** Deadlines and food *)

Section Deadlines.

Variables world_width world_height : Z.



End Deadlines.



(** X17: a pass takes a cell out of the food set only by eating it: a
    food cell that is gone after the pass is the cell the head is on. *)
Theorem food_leaves_only_under_head (world_width world_height : Z)
    (inp : Input) (st st' : GameState) (c : Cell) :
  iteration world_width world_height inp st = Ok st' →
  c ∈ food st → c ∉ food st' →
  snake st' !! 0%nat = Some c ∧
  spare_parts st' = spare_parts st + 3 ∨
  snake st' !! 0%nat = Some c ∧
  0 < spare_parts st ∧ spare_parts st' = spare_parts st + 2.
Proof.
  unfold iteration, update. intros H Hin Hout. inv_bind H.
  apply handle_events_frame in Ha as (_ & <- & Hf). rewrite <- Hf in Hin.
  destruct (paused a); [by injection H as <-|].
  inv_bind H.
  apply spawn_food_inv in Ha as (_ & <- & _ & _ & Hfood).
  assert (c ∈ food a0) as Hin0.
  { destruct Hfood as [->|[_ ->]]; [done|by apply elem_of_union_r]. }
  destruct (Qlt_bool _ _); [by injection H as <-|].
  inv_bind H. pose proof (advance_food _ _ _ _ Ha) as Hfood1.
  pose proof (advance_spare_parts _ _ _ _ Ha) as Hspare.
  destruct a1 as [st1|st1]; simpl in Hfood1, Hspare;
    [|injection H as <-; by rewrite Hfood1 in Hout].
  apply eat_inv in H as [Hs [[Hf1 _]|(head & Hhead & _ & Hf1 & Hsp)]];
    rewrite Hf1, Hfood1 in Hout; [done|].
  assert (c = head) as ->.
  { destruct (decide (c = head)); [done|].
    exfalso. apply Hout. apply elem_of_difference. split; [done|].
    by rewrite elem_of_singleton. }
  rewrite Hs, Hsp, Hspare.
  destruct (0 <? spare_parts a0) eqn:Hpos; [right|left]; split; try done.
  apply Z.ltb_lt in Hpos. split; lia.
Qed.

(** X17, for the eating pass of the sample position: (6, 5) is gone from
    the food set and the head is on it. *)
Lemma food_leaves_only_under_head_witness :
  ∃ st',
    iteration 10 10 quiet_pass about_to_eat = Ok st' ∧
    (snake st' !! 0%nat = Some (6, 5) ∧
     spare_parts st' = spare_parts about_to_eat + 3 ∨
     snake st' !! 0%nat = Some (6, 5) ∧
     0 < spare_parts about_to_eat ∧
     spare_parts st' = spare_parts about_to_eat + 2).
Proof.
  eexists. split; [vm_compute; reflexivity|].
  apply (food_leaves_only_under_head 10 10 quiet_pass about_to_eat _ (6, 5));
    [vm_compute; reflexivity | by vm_compute | by vm_compute].
Defined.

(** ** The food spawn, whatever the frame deadline *)

Lemma spawn_food_Ok_due (world_width world_height : Z) (inp : Input)
    (st st' : GameState) :
  (next_food st <= current inp)%Q →
  spawn_food world_width world_height inp st = Ok st' →
  food st' = {[ (food_x inp, food_y inp) ]} ∪ food st ∧
  snake st' = snake st ∧ next_frame st' = next_frame st.
Proof.
  intros Hdue. unfold spawn_food. apply Qle_bool_iff in Hdue as ->.
  destruct (_ || _); [discriminate|]. by intros [= <-].
Qed.

(** C2, as the code has it: food is spawned before the frame-deadline
    test and independently of it.  On every pass that is not paused once
    its events are handled and whose clock has reached [next_food], the
    drawn cell is put into the food set, whether or not the clock has
    reached [next_frame].  With the clock before [next_frame] the pass
    ends there, with the body as it was; with the frame due, the only
    change the rest of the pass makes to the food set is to take out the
    cell the head eats.  In a world of positive size such a pass
    completes.  A pass puts a new cell into the food set in no other way
    than this draw: only when it is not paused and its clock has reached
    [next_food]. *)
Theorem food_spawn_gated_by_food_deadline (world_width world_height : Z) :
  (∀ inp st st1 st',
     handle_events (events inp) st = Ok st1 →
     paused st1 = false →
     (next_food st1 <= current inp)%Q →
     iteration world_width world_height inp st = Ok st' →
     (food st' = {[ (food_x inp, food_y inp) ]} ∪ food st ∨
      ∃ head,
        snake st' !! 0%nat = Some head ∧
        head ∈ ({[ (food_x inp, food_y inp) ]} ∪ food st : gset Cell) ∧
        food st' = ({[ (food_x inp, food_y inp) ]} ∪ food st) ∖ {[ head ]}) ∧
     ((current inp < next_frame st1)%Q →
        food st' = {[ (food_x inp, food_y inp) ]} ∪ food st ∧
        snake st' = snake st)) ∧
  (∀ inp st st1,
     handle_events (events inp) st = Ok st1 →
     0 < world_width → 0 < world_height → snake st ≠ [] →
     ∃ st', iteration world_width world_height inp st = Ok st') ∧
  (∀ inp st st1,
     handle_events (events inp) st = Ok st1 →
     paused st1 = false →
     (next_food st1 <= current inp)%Q →
     (current inp < next_frame st1)%Q →
     0 ≤ world_width → 0 ≤ world_height →
     ∃ st', iteration world_width world_height inp st = Ok st' ∧
            food st' = {[ (food_x inp, food_y inp) ]} ∪ food st ∧
            snake st' = snake st) ∧
  (∀ inp st st' c,
     iteration world_width world_height inp st = Ok st' →
     c ∈ food st' → c ∉ food st →
     ∃ st1, handle_events (events inp) st = Ok st1 ∧
            paused st1 = false ∧
            (next_food st1 <= current inp)%Q ∧
            c = (food_x inp, food_y inp)).
Proof.
  split_and!.
  - intros inp st st1 st' Hev Hpaused Hdue. unfold iteration. rewrite Hev.
    cbn [mbind result_bind].
    destruct (handle_events_frame _ _ _ Hev) as (Hs & _ & Hf).
    unfold update. rewrite Hpaused. intros H. inv_bind H.
    apply (spawn_food_Ok_due _ _ _ _ _ Hdue) in Ha as (Hfa & Hsa & Hna).
    rewrite Hf in Hfa. rewrite Hna in H.
    destruct (Qlt_bool (current inp) (next_frame st1)) eqn:Hframe.
    + injection H as <-. split; [by left|]. intros _. split; congruence.
    + split.
      2: { intros Hlt%Qlt_bool_iff. congruence. }
      inv_bind H. pose proof (advance_food _ _ _ _ Ha) as Hfood.
      destruct a0 as [st2|st2]; simpl in Hfood.
      * apply eat_inv in H as [Hs2 [[Hf2 _]|(head & Hhead & Hin & Hf2 & _)]].
        -- left. congruence.
        -- right. exists head. rewrite Hs2, Hf2, <- Hfa, <- Hfood. done.
      * injection H as <-. left. congruence.
  - intros inp st st1 Hev Hw Hh Hbody. unfold iteration. rewrite Hev.
    cbn [mbind result_bind]. apply update_Ok; [done..|].
    apply handle_events_frame in Hev as (-> & _ & _). done.
  - intros inp st st1 Hev Hpaused Hfood Hframe Hw Hh.
    destruct (handle_events_frame _ _ _ Hev) as (Hs & _ & Hf).
    eexists. split; [|split].
    + unfold iteration. rewrite Hev. simpl. unfold update.
      rewrite Hpaused, spawn_food_due by done. simpl.
      apply Qlt_bool_iff in Hframe as ->. done.
    + simpl. by rewrite Hf.
    + done.
  - intros inp st st' c Hit Hin Hout. unfold iteration in Hit. inv_bind Hit.
    destruct (handle_events_frame _ _ _ Ha) as (_ & _ & Hf).
    rewrite <- Hf in Hout.
    destruct (update_new_food _ _ _ _ _ _ Hit Hin Hout) as (? & ? & ?).
    by exists a.
Qed.

(** C2, for the first pass of a new game on a 40 x 30 world: the frame is
    due, the snake moves, and the drawn cell (3, 4) is in the food set. *)
Lemma food_spawned_on_frame_pass :
  ∃ st',
    iteration 40 30 (frame_pass 0) (initial 40 30 0 0) = Ok st' ∧
    (next_frame (initial 40 30 0 0) <= current (frame_pass 0))%Q ∧
    snake st' = [(20, 14); (20, 15); (20, 16); (20, 17)] ∧
    ((3, 4) ∈ food st').
Proof.
  eexists. split; [vm_compute; reflexivity|].
  split; [by vm_compute|]. split; [reflexivity|].
  edestruct (proj1 (food_spawn_gated_by_food_deadline 40 30)
               (frame_pass 0) (initial 40 30 0 0))
    as [[Hfood|(head & Hhead & Hin & _)] _];
    [reflexivity | reflexivity | by vm_compute | vm_compute; reflexivity | |].
  - rewrite Hfood. apply elem_of_union_l. by apply elem_of_singleton.
  - exfalso. vm_compute in Hhead. injection Hhead as <-.
    by vm_compute in Hin.
Defined.

(** ** The two failures in play *)

Lemma edge_game_ok : Forall (input_ok 120 67) edge_game.
Proof. repeat constructor; by vm_compute. Qed.

(** C1 in play: the game [edge_game] brings the head to (0, 33) heading
    right, with the body behind it across the edge on (119, 33),
    (118, 33) and (117, 33).  The press of A turns the head back across
    the edge: line 177 counts the cell (-1, 33), line 182 wraps the head
    onto (119, 33), the cell of the third segment, and the game goes
    on. *)
Lemma wrapped_head_on_body_in_play :
  ∃ st,
    game_loop 120 67 edge_game (initial 120 67 0 0) = Ok st ∧
    reachable 120 67 st ∧
    running st = true ∧
    snake st = [(119, 33); (0, 33); (119, 33); (118, 33)].
Proof.
  eexists. split; [vm_compute; reflexivity|]. split_and!; [|reflexivity..].
  eapply game_loop_reachable;
    [apply (reach_initial 120 67 0 0) | apply edge_game_ok | by vm_compute].
Qed.

(** C4 in play: the first pass of a game draws food on the cell above the
    head, the head eats it, and three parts are pending.  With S pressed in
    the next pass the snake turns back onto its second segment: the game
    ends with the body still four cells long and the three parts still
    pending. *)
Lemma dying_advance_in_play :
  ∃ st st',
    iteration 40 30 eating_start (initial 40 30 0 0) = Ok st ∧
    reachable 40 30 st ∧
    length (snake st) = 4%nat ∧ spare_parts st = 3 ∧
    iteration 40 30 (key_pass 1 K_s) st = Ok st' ∧
    running st' = false ∧
    length (snake st') = 4%nat ∧ spare_parts st' = 3.
Proof.
  eexists _, _. split; [vm_compute; reflexivity|].
  split_and!; [|reflexivity|reflexivity|vm_compute; reflexivity|reflexivity..].
  eapply (reach_iteration 40 30 (initial 40 30 0 0) _ eating_start);
    [apply reach_initial | reflexivity | repeat split; by vm_compute
    | by vm_compute].
Qed.
